(** * Moving-average crossover strategy and backtester

    A shallow embedding of [strategy.py] (moving averages, crossover
    signals), [backtest.py] (portfolio simulation, performance metrics) and
    the validator of [config.py].

    Numbers.  Python and pandas compute on float64.  Two models of the
    trading loop are given.  In the first a finite float is a rational
    ([Q]) and sums, differences and products are exact; the share count,
    an integer, is taken from the quotient rounded to binary64
    ([int_of_quotient]); the result of a division whose divisor is zero
    (IEEE [inf] or [nan]) is the separate value [NonFinite] of type [num].
    It serves for the structure of a run: which rows trade, what a record
    holds, how the columns are derived.  The second ([execute_trade64],
    [simulate64]) computes every operation on IEEE binary64, the kernel's
    primitive floats; it serves wherever a sign or an exception depends on
    rounding.  Share counts and signals are Python integers ([Z]).  Raised
    exceptions are values of [result]. *)

From Stdlib Require Import QArith Qround Lqa Lia ZArith.
From Stdlib Require Import PrimFloat SpecFloat FloatOps.
From stdpp Require Import base option list gmap strings.

Local Open Scope Z_scope.

(** ** Exceptions *)

Inductive exn : Set := ValueError | KeyError | OverflowError | IndexError.

Inductive result (A : Type) : Type :=
| Ok (a : A)
| Raise (e : exn).
Arguments Ok {A} a.
Arguments Raise {A} e.

(** Sequencing: the first raised exception aborts what follows. *)
#[global] Instance result_bind : MBind result := fun A B k m =>
  match m with
  | Ok a => k a
  | Raise e => Raise e
  end.

Definition is_ok {A : Type} (m : result A) : Prop :=
  match m with Ok _ => True | Raise _ => False end.

(** ** Floats *)

Definition Qltb (a b : Q) : bool := negb (Qle_bool b a).

(** Python's [int(x)] on a finite float: truncation toward zero. *)
Definition py_int (x : Q) : Z := Z.quot (Qnum x) (Zpos (Qden x)).

(** The rational a finite float denotes ([0] for the values that denote
    none). *)
Definition float_value (x : float) : Q :=
  match Prim2SF x with
  | S754_finite s m e =>
      let q := (inject_Z (Zpos m) * Qpower 2 e)%Q in
      if s then (- q)%Q else q
  | _ => 0%Q
  end.


(** Python's [int(x)] on a float: truncation toward zero;
    [OverflowError] on an infinity and [ValueError] on [nan]. *)
Definition int_of_float (x : float) : result Z :=
  match Prim2SF x with
  | S754_nan => Raise ValueError
  | S754_infinity _ => Raise OverflowError
  | S754_zero _ | S754_finite _ _ _ => Ok (py_int (float_value x))
  end.

(** The float an integer operand is converted to, as in
    [shares_to_buy * price]. *)
Definition float_of_int (n : Z) : float :=
  SF2Prim (binary_normalize prec emax n 0 false).

(** The float nearest to a rational, ties to even: the quotient of
    numerator by denominator is taken to 56 bits or more, a last bit
    records whether anything was left over, and the result is rounded
    once. *)
Definition float_of_Q (q : Q) : float :=
  let n := Qnum q in
  let d := Zpos (Qden q) in
  let k := Z.max 0 (Z.log2 d + 56 - Z.log2 (Z.abs n)) in
  let z := Z.abs n * 2 ^ k in
  let m := 2 * (z / d) + (if z mod d =? 0 then 0 else 1) in
  SF2Prim (binary_normalize prec emax (Z.sgn n * m) (- k - 1) false).

(** [int(a / b)] where [b] is a numpy float: the quotient is the rounded
    one of binary64; a zero divisor, or a divisor so small that the
    quotient overflows, gives [inf] (or [nan] for 0/0) with a warning, and
    [int] of those raises. *)
Definition int_of_quotient (a b : Q) : result Z :=
  int_of_float (float_of_Q a / float_of_Q b)%float.
Arguments int_of_quotient : simpl never.

(** ** backtest.py: the portfolio simulator *)

(** One row of the frame handed to [run_backtest], as [iterrows] yields it:
    the index label and the columns the strategy produced. *)
Record Row : Set := mkRow {
  Date : nat;
  Close : Q;
  Signal : Z;
  Position : Z
}.

Inductive action : Set := BUY | SELL.

(** A trade dictionary.  ['Cost'] is a key of BUY entries only and
    ['Proceeds'] of SELL entries only. *)
Record Trade : Set := mkTrade {
  t_Date : nat;
  t_Action : action;
  t_Shares : Z;
  t_Price : Q;
  t_Cost : option Q;
  t_Proceeds : option Q;
  t_Commission : Q;
  t_Cash_After : Q;
  t_Shares_After : Z
}.

Record Snapshot : Set := mkSnapshot {
  s_Date : nat;
  s_Cash : Q;
  s_Shares : Z;
  s_Price : Q;
  s_Portfolio_Value : Q
}.

(** The loop variables of [run_backtest]. *)
Record Portfolio : Set := mkPortfolio {
  cash : Q;
  shares : Z;
  trade_log : list Trade;
  portfolio_values : list Snapshot
}.

Definition buy_signal : Z := 1.
Definition sell_signal : Z := -1.
Definition hold_signal : Z := 0.

(** Lines 73-112: the trade executed on one row, if any. *)
Definition execute_trade (commission : Q) (st : Portfolio) (row : Row)
  : result Portfolio :=
  let price := Close row in
  let signal := Signal row in
  if (signal =? 1) && (shares st =? 0) then
    let commission_cost := (cash st * commission)%Q in
    let available_cash := (cash st - commission_cost)%Q in
    shares_to_buy ← int_of_quotient available_cash price;
    if 0 <? shares_to_buy then
      let cost := (inject_Z shares_to_buy * price)%Q in
      let cash' := (cash st - (cost + commission_cost))%Q in
      let shares' := shares st + shares_to_buy in
      Ok (mkPortfolio cash' shares'
            (trade_log st ++
               [mkTrade (Date row) BUY shares_to_buy price (Some cost) None
                        commission_cost cash' shares'])
            (portfolio_values st))
    else Ok st
  else if (signal =? -1) && (0 <? shares st) then
    let proceeds := (inject_Z (shares st) * price)%Q in
    let commission_cost := (proceeds * commission)%Q in
    let cash' := (cash st + (proceeds - commission_cost))%Q in
    Ok (mkPortfolio cash' 0
          (trade_log st ++
             [mkTrade (Date row) SELL (shares st) price None (Some proceeds)
                      commission_cost cash' 0])
          (portfolio_values st))
  else Ok st.

(** Lines 114-122: the snapshot appended on every row. *)
Definition record_value (st : Portfolio) (row : Row) : Portfolio :=
  let price := Close row in
  let portfolio_value := (cash st + inject_Z (shares st) * price)%Q in
  mkPortfolio (cash st) (shares st) (trade_log st)
    (portfolio_values st ++
       [mkSnapshot (Date row) (cash st) (shares st) price portfolio_value]).

Definition step (commission : Q) (st : Portfolio) (row : Row)
  : result Portfolio :=
  st' ← execute_trade commission st row;
  Ok (record_value st' row).

(** The [for] loop over the rows. *)
Fixpoint simulate (commission : Q) (st : Portfolio) (rows : list Row)
  : result Portfolio :=
  match rows with
  | [] => Ok st
  | row :: rows' =>
      st' ← step commission st row;
      simulate commission st' rows'
  end.

Definition initial_portfolio (initial_capital : Q) : Portfolio :=
  mkPortfolio initial_capital 0 [] [].

(** ** backtest.py: the trading loop on binary64 *)

(** The same loop with the arithmetic the interpreter performs: every
    product, sum, difference and quotient is rounded to the nearest
    binary64 value, a division by zero gives an infinity or [nan], and
    [int] takes the rounded quotient. *)

Record Row64 : Set := mkRow64 {
  Date64 : nat;
  Close64 : float;
  Signal64 : Z;
  Position64 : Z
}.

Record Trade64 : Set := mkTrade64 {
  t_Date64 : nat;
  t_Action64 : action;
  t_Shares64 : Z;
  t_Price64 : float;
  t_Cost64 : option float;
  t_Proceeds64 : option float;
  t_Commission64 : float;
  t_Cash_After64 : float;
  t_Shares_After64 : Z
}.

Record Snapshot64 : Set := mkSnapshot64 {
  s_Date64 : nat;
  s_Cash64 : float;
  s_Shares64 : Z;
  s_Price64 : float;
  s_Portfolio_Value64 : float
}.

Record Portfolio64 : Set := mkPortfolio64 {
  cash64 : float;
  shares64 : Z;
  trade_log64 : list Trade64;
  portfolio_values64 : list Snapshot64
}.

(** Lines 73-112 on binary64. *)
Definition execute_trade64 (commission : float) (st : Portfolio64)
    (row : Row64) : result Portfolio64 :=
  let price := Close64 row in
  let signal := Signal64 row in
  if (signal =? 1) && (shares64 st =? 0) then
    let commission_cost := (cash64 st * commission)%float in
    let available_cash := (cash64 st - commission_cost)%float in
    shares_to_buy ← int_of_float (available_cash / price)%float;
    if 0 <? shares_to_buy then
      let cost := (float_of_int shares_to_buy * price)%float in
      let cash' := (cash64 st - (cost + commission_cost))%float in
      let shares' := shares64 st + shares_to_buy in
      Ok (mkPortfolio64 cash' shares'
            (trade_log64 st ++
               [mkTrade64 (Date64 row) BUY shares_to_buy price (Some cost)
                          None commission_cost cash' shares'])
            (portfolio_values64 st))
    else Ok st
  else if (signal =? -1) && (0 <? shares64 st) then
    let proceeds := (float_of_int (shares64 st) * price)%float in
    let commission_cost := (proceeds * commission)%float in
    let cash' := (cash64 st + (proceeds - commission_cost))%float in
    Ok (mkPortfolio64 cash' 0
          (trade_log64 st ++
             [mkTrade64 (Date64 row) SELL (shares64 st) price None
                        (Some proceeds) commission_cost cash' 0])
          (portfolio_values64 st))
  else Ok st.

(** Lines 114-122 on binary64. *)
Definition record_value64 (st : Portfolio64) (row : Row64) : Portfolio64 :=
  let price := Close64 row in
  let portfolio_value :=
    (cash64 st + float_of_int (shares64 st) * price)%float in
  mkPortfolio64 (cash64 st) (shares64 st) (trade_log64 st)
    (portfolio_values64 st ++
       [mkSnapshot64 (Date64 row) (cash64 st) (shares64 st) price
                     portfolio_value]).

Definition step64 (commission : float) (st : Portfolio64)
    (row : Row64) : result Portfolio64 :=
  st' ← execute_trade64 commission st row;
  Ok (record_value64 st' row).

Fixpoint simulate64 (commission : float) (st : Portfolio64)
    (rows : list Row64) : result Portfolio64 :=
  match rows with
  | [] => Ok st
  | row :: rows' =>
      st' ← step64 commission st row;
      simulate64 commission st' rows'
  end.

Definition initial_portfolio64 (initial_capital : float)
  : Portfolio64 :=
  mkPortfolio64 initial_capital 0 [] [].

(** ** backtest.py: the performance analyzer *)

(** A float the analyzer computes: finite, or the [inf]/[nan] that a zero
    divisor produces.  Whatever is computed from a [NonFinite] is
    [NonFinite]; its IEEE sign and kind are not tracked further. *)
Inductive num : Set :=
| Fin (q : Q)
| NonFinite.

(** [a / b] on floats. *)
Definition fdiv (a b : Q) : num :=
  if Qeq_bool b 0 then NonFinite else Fin (a / b)%Q.

Definition nlift (f : Q → Q) (a : num) : num :=
  match a with
  | Fin x => Fin (f x)
  | NonFinite => NonFinite
  end.

Definition nlift2 (f : Q → Q → Q) (a b : num) : num :=
  match a, b with
  | Fin x, Fin y => Fin (f x y)
  | _, _ => NonFinite
  end.

Definition ndiv (a b : num) : num :=
  match a, b with
  | Fin x, Fin y => fdiv x y
  | _, _ => NonFinite
  end.

(** [x > 0]; false on [nan]. *)
Definition npos (a : num) : bool :=
  match a with
  | Fin x => Qltb 0 x
  | NonFinite => false
  end.

Definition finite (a : num) : Prop :=
  match a with Fin _ => True | NonFinite => False end.

(** [Series.pct_change()]: no value on the first row, then
    [v_i / v_(i-1) - 1]. *)
Fixpoint pct_change_from (prev : Q) (vs : list Q) : list (option num) :=
  match vs with
  | [] => []
  | v :: vs' => Some (nlift (fun x => x - 1)%Q (fdiv v prev))
                  :: pct_change_from v vs'
  end.

Definition pct_change (vs : list Q) : list (option num) :=
  match vs with
  | [] => []
  | v :: vs' => None :: pct_change_from v vs'
  end.

(** [Series.expanding().max()]. *)
Fixpoint expanding_max_from (peak : Q) (vs : list Q) : list Q :=
  match vs with
  | [] => []
  | v :: vs' =>
      let peak' := if Qle_bool peak v then v else peak in
      peak' :: expanding_max_from peak' vs'
  end.

Definition expanding_max (vs : list Q) : list Q :=
  match vs with
  | [] => []
  | v :: vs' => v :: expanding_max_from v vs'
  end.

(** One entry of the ['Drawdown'] column, [(v - peak) / peak].  On a zero
    peak [0 / 0] is [nan], which pandas counts as a missing value ([None]);
    any other numerator gives an infinity, and a negative one: under a
    running maximum the numerator is never positive. *)
Definition drawdown_entry (v peak : Q) : option num :=
  if Qeq_bool peak 0 && Qeq_bool (v - peak) 0 then None
  else Some (fdiv (v - peak) peak).

(** The ['Drawdown'] column. *)
Definition drawdown (vs : list Q) : list (option num) :=
  zip_with drawdown_entry vs (expanding_max vs).

(** The smaller of two drawdowns; a [NonFinite] one is [-inf]. *)
Definition nmin (a b : num) : num :=
  match a, b with
  | Fin x, Fin y => Fin (if Qle_bool x y then x else y)
  | _, _ => NonFinite
  end.

(** [Series.min()]: missing values are skipped; the minimum of no value
    is missing. *)
Definition column_min (xs : list (option num)) : option num :=
  foldl (fun acc x =>
           match acc, x with
           | Some a, Some b => Some (nmin a b)
           | None, _ => x
           | Some a, None => Some a
           end) None xs.

(** A dictionary access [d[key]] on a key that may be absent. *)
Definition getitem {A : Type} (field : option A) : result A :=
  match field with
  | Some a => Ok a
  | None => Raise KeyError
  end.

(** A positional access [s.iloc[i]] that may be out of bounds. *)
Definition iloc {A : Type} (item : option A) : result A :=
  match item with
  | Some a => Ok a
  | None => Raise IndexError
  end.

(** Lines 186-191: the loop over [range(0, len(trades) - 1, 2)]. *)
Fixpoint profitable_trades (trades : list Trade) : result Z :=
  match trades with
  | buy_trade :: sell_trade :: rest =>
      proceeds ← getitem (t_Proceeds sell_trade);
      cost ← getitem (t_Cost buy_trade);
      n ← profitable_trades rest;
      Ok (if Qltb cost proceeds then 1 + n else n)
  | _ => Ok 0
  end.

(** Lines 182-196: trade pairs and win rate. *)
Definition win_rate (trades : list Trade) : result (Z * num) :=
  match trades with
  | [] => Ok (0, Fin 0)
  | _ =>
      let total_trades := Z.of_nat (length trades) / 2 in
      profitable ← profitable_trades trades;
      Ok (total_trades,
          if 0 <? total_trades
          then fdiv (inject_Z profitable) (inject_Z total_trades)
          else Fin 0)
  end.

(** Line 174. *)
Definition sharpe_ratio_of (total_return volatility : num) : num :=
  if npos volatility
  then ndiv (nlift (fun x => x * 252)%Q total_return)
            (nlift (fun x => x * 252)%Q volatility)
  else Fin 0.

(** The result dictionary of [_calculate_performance_metrics]. *)
Record Metrics : Set := mkMetrics {
  initial_capital : Q;
  final_value : Q;
  total_return_pct : num;
  buy_hold_return_pct : num;
  buy_hold_final_value : num;
  excess_return_pct : num;
  volatility_pct : num;
  sharpe_ratio : num;
  max_drawdown_pct : num;
  total_trades : Z;
  trade_pairs : Z;
  win_rate_pct : num;
  Daily_Return : list (option num);
  Peak : list Q;
  Drawdown : list (option num);
  trades_df : list Trade
}.

(** What [run_backtest] leaves behind: [self.trades],
    [self.portfolio_values] and the returned dictionary ([None] for the
    empty dictionary of an empty run). *)
Record Outcome : Set := mkOutcome {
  trades : list Trade;
  snapshots : list Snapshot;
  results : option Metrics
}.

Section Analyzer.

(** [Series.std() * np.sqrt(252)] of the daily returns.  A standard
    deviation and a square root are not rational functions, so the
    annualized volatility is a parameter of the model; it is [nan] (here
    [NonFinite]) on fewer than two returns. *)
Variable annualized_std : list (option num) → num.

Definition calculate_performance_metrics
    (capital : Q) (trade_list : list Trade) (values : list Snapshot)
    (data : list Row) : result (option Metrics) :=
  match last values with
  | None => Ok None
  | Some final =>
      first_row ← iloc (head data);
      last_row ← iloc (last data);
      let final_value := s_Portfolio_Value final in
      let total_return := fdiv (final_value - capital) capital in
      let start_price := Close first_row in
      let end_price := Close last_row in
      let buy_hold_return := fdiv (end_price - start_price) start_price in
      let buy_hold_final_value :=
        nlift (fun b => capital * (1 + b))%Q buy_hold_return in
      let vs := s_Portfolio_Value <$> values in
      let daily := pct_change vs in
      let volatility := annualized_std daily in
      let sharpe := sharpe_ratio_of total_return volatility in
      let dd := drawdown vs in
      let max_drawdown := column_min dd in
      '(pairs, rate) ← win_rate trade_list;
      Ok (Some (mkMetrics capital final_value
            (nlift (fun x => x * 100)%Q total_return)
            (nlift (fun x => x * 100)%Q buy_hold_return)
            buy_hold_final_value
            (nlift (fun x => x * 100)%Q
               (nlift2 Qminus total_return buy_hold_return))
            (nlift (fun x => x * 100)%Q volatility)
            sharpe
            (match max_drawdown with
             | Some d => nlift (fun x => x * 100)%Q d
             | None => NonFinite
             end)
            (Z.of_nat (length trade_list)) pairs
            (nlift (fun x => x * 100)%Q rate)
            daily (expanding_max vs) dd trade_list))
  end.

Definition run_backtest (capital commission : Q) (data : list Row)
  : result Outcome :=
  st ← simulate commission (initial_portfolio capital) data;
  m ← calculate_performance_metrics capital (trade_log st)
        (portfolio_values st) data;
  Ok (mkOutcome (trade_log st) (portfolio_values st) m).

End Analyzer.

(** ** strategy.py: moving averages *)

(** The frame the strategy works on: the price column and the columns
    named [MA_<window>], keyed by the window.  Index labels are the row
    positions. *)
Record Frame : Type := mkFrame {
  close : list Q;
  ma : gmap Z (list (option Q))
}.

(** *** [Series.rolling(window).mean()]

    pandas slides a running sum over the column: row [i] sees the window
    [values[start i : end i)], it removes the values that left the window
    since row [i-1] and adds the ones that entered.  [min_periods] defaults
    to the window size.  (The compensation terms of the summation are zero
    in exact arithmetic and are left out.) *)

Definition window_start (w i : nat) : nat := (S i - w)%nat.
Definition window_end (i : nat) : nat := S i.

(** [l[a:b]]. *)
Definition slice {A : Type} (l : list A) (a b : nat) : list A :=
  take (b - a) (drop a l).

Definition add_mean (st : Q * nat) (val : Q) : Q * nat :=
  ((st.1 + val)%Q, S st.2).

Definition remove_mean (st : Q * nat) (val : Q) : Q * nat :=
  ((st.1 - val)%Q, pred st.2).

Definition calc_mean (minp : nat) (st : Q * nat) : option Q :=
  if (minp <=? st.2)%nat && (0 <? st.2)%nat
  then Some (st.1 / inject_Z (Z.of_nat st.2))%Q
  else None.

(** The running sum and count after row [i], from those after row [i-1]. *)
Definition slide_window (values : list Q) (w i : nat) (st : Q * nat)
  : Q * nat :=
  let s := window_start w i in
  let e := window_end i in
  if (i =? 0)%nat || (window_end (i - 1) <=? s)%nat
  then foldl add_mean (0%Q, O) (slice values s e)
  else foldl add_mean
         (foldl remove_mean st (slice values (window_start w (i - 1)) s))
         (slice values (window_end (i - 1)) e).

Fixpoint roll_mean_loop (values : list Q) (w minp : nat)
    (todo i : nat) (st : Q * nat) : list (option Q) :=
  match todo with
  | O => []
  | S todo' =>
      let st' := slide_window values w i st in
      calc_mean minp st' :: roll_mean_loop values w minp todo' (S i) st'
  end.

Definition roll_mean (values : list Q) (w : nat) : list (option Q) :=
  roll_mean_loop values w w (length values) 0 (0%Q, O).

(** pandas rejects a negative window. *)
Definition rolling_mean (window : Z) (values : list Q)
  : result (list (option Q)) :=
  if window <? 0 then Raise ValueError
  else Ok (roll_mean values (Z.to_nat window)).

Definition calculate_moving_averages (data : Frame)
    (short_window long_window : Z) : result Frame :=
  short_col ← rolling_mean short_window (close data);
  let df := mkFrame (close data) (<[short_window := short_col]> (ma data)) in
  long_col ← rolling_mean long_window (close df);
  Ok (mkFrame (close df) (<[long_window := long_col]> (ma df))).

(** ** strategy.py: crossover signals *)

(** The frame [generate_signals] returns. *)
Record SignalFrame : Type := mkSignalFrame {
  frame : Frame;
  signal_col : list Z;
  position_col : list Z
}.

(** [df.dropna(subset=[short, long])]: the rows on which both averages
    exist, with their index labels. *)
Fixpoint dropna_from (i : nat) (short_col long_col : list (option Q))
  : list (nat * (Q * Q)) :=
  match short_col, long_col with
  | s :: short_col', l :: long_col' =>
      match s, l with
      | Some a, Some b => (i, (a, b)) :: dropna_from (S i) short_col' long_col'
      | _, _ => dropna_from (S i) short_col' long_col'
      end
  | _, _ => []
  end.

Definition dropna (short_col long_col : list (option Q))
  : list (nat * (Q * Q)) :=
  dropna_from 0 short_col long_col.

(** Lines 90-105, one iteration: [prev] and [cur] are consecutive rows of
    [valid_data]. *)
Definition crossover_assign (prev cur : nat * (Q * Q)) (signal : list Z)
  : list Z :=
  let current_idx := cur.1 in
  let current_short := cur.2.1 in
  let current_long := cur.2.2 in
  let prev_short := prev.2.1 in
  let prev_long := prev.2.2 in
  if Qle_bool prev_short prev_long && Qltb current_long current_short
  then <[current_idx := 1]> signal
  else if Qle_bool prev_long prev_short && Qltb current_short current_long
  then <[current_idx := -1]> signal
  else signal.

Fixpoint crossover_loop (prev : nat * (Q * Q))
    (rest : list (nat * (Q * Q))) (signal : list Z) : list Z :=
  match rest with
  | [] => signal
  | cur :: rest' => crossover_loop cur rest' (crossover_assign prev cur signal)
  end.

(** Lines 109-119. *)
Fixpoint position_loop (position : Z) (signal : list Z) : list Z :=
  match signal with
  | [] => []
  | s :: signal' =>
      let position' :=
        if s =? 1 then 1 else if s =? -1 then 0 else position in
      position' :: position_loop position' signal'
  end.

Definition generate_signals (data : Frame) (short_window long_window : Z)
  : result SignalFrame :=
  let n := length (close data) in
  let signal0 := replicate n 0 in
  let position0 := replicate n 0 in
  short_col ← getitem (ma data !! short_window);
  long_col ← getitem (ma data !! long_window);
  let valid_data := dropna short_col long_col in
  if (length valid_data <? 2)%nat
  then Ok (mkSignalFrame data signal0 position0)
  else
    let signal :=
      match valid_data with
      | [] => signal0
      | first :: rest => crossover_loop first rest signal0
      end in
    Ok (mkSignalFrame data signal (position_loop 0 signal)).

Definition create_strategy_data (data : Frame) (short_window long_window : Z)
  : result SignalFrame :=
  df_with_ma ← calculate_moving_averages data short_window long_window;
  generate_signals df_with_ma short_window long_window.

(** [df.iterrows()] on the strategy's output, as [run_backtest] reads it. *)
Fixpoint iterrows_from (i : nat) (prices : list Q) (signal position : list Z)
  : list Row :=
  match prices, signal, position with
  | p :: prices', s :: signal', q :: position' =>
      mkRow i p s q :: iterrows_from (S i) prices' signal' position'
  | _, _, _ => []
  end.

Definition iterrows (df : SignalFrame) : list Row :=
  iterrows_from 0 (close (frame df)) (signal_col df) (position_col df).

(** ** config.py *)

Inductive config_error : Set :=
| short_not_less_than_long
| capital_not_positive
| commission_out_of_range.

Definition config_errors (SHORT_MA LONG_MA : Z)
    (INITIAL_CAPITAL COMMISSION : Q) : list config_error :=
  (if SHORT_MA >=? LONG_MA then [short_not_less_than_long] else [])
  ++ (if Qle_bool INITIAL_CAPITAL 0 then [capital_not_positive] else [])
  ++ (if Qltb COMMISSION 0 || Qltb (1 # 10) COMMISSION
      then [commission_out_of_range] else []).

(** Prints the errors and returns whether there were none; it raises
    nothing. *)
Definition validate_config (SHORT_MA LONG_MA : Z)
    (INITIAL_CAPITAL COMMISSION : Q) : bool :=
  match config_errors SHORT_MA LONG_MA INITIAL_CAPITAL COMMISSION with
  | [] => true
  | _ => false
  end.

(** ** Predicates and data used in the statements *)

(** The three-period scenario: flat price 100, signals Hold, Buy, Sell. *)
Definition flat_scenario : list Row :=
  [mkRow 0 100 0 0; mkRow 1 100 1 0; mkRow 2 100 (-1) 0].


(** The trade log alternates, starting with a BUY: the trades at even
    positions are BUYs and those at odd positions SELLs. *)
Definition alternating (log : list Trade) : Prop :=
  ∀ i t, log !! i = Some t → t_Action t = if Nat.even i then BUY else SELL.

(** No two consecutive trades have the same action. *)
Definition no_repeat (log : list Trade) : Prop :=
  ∀ i a b, log !! i = Some a → log !! S i = Some b → t_Action a ≠ t_Action b.

(** A BUY entry has the key ['Cost'], a SELL entry the key ['Proceeds']. *)
Definition well_keyed (t : Trade) : Prop :=
  match t_Action t with
  | BUY => is_Some (t_Cost t)
  | SELL => is_Some (t_Proceeds t)
  end.

(** What one period may do to the portfolio: nothing, a BUY from a
    portfolio without shares, or a SELL from one with shares. *)
Definition gated (st : Portfolio) (row : Row) (st' : Portfolio) : Prop :=
  st' = st
  ∨ (∃ t, trade_log st' = trade_log st ++ [t] ∧ t_Action t = BUY
          ∧ well_keyed t
          ∧ Signal row = buy_signal ∧ shares st = 0 ∧ 0 < shares st')
  ∨ (∃ t, trade_log st' = trade_log st ++ [t] ∧ t_Action t = SELL
          ∧ well_keyed t
          ∧ Signal row = sell_signal ∧ 0 < shares st ∧ shares st' = 0).

(** The share count tells which action the log expects next. *)
Definition position_ok (st : Portfolio) : Prop :=
  alternating (trade_log st)
  ∧ 0 <= shares st
  ∧ (shares st = 0 ↔ Nat.even (length (trade_log st)) = true)
  ∧ Forall well_keyed (trade_log st).

(** Two rows that agree on everything but the ['Position'] column. *)
Definition same_but_position (a b : Row) : Prop :=
  Date a = Date b ∧ Close a = Close b ∧ Signal a = Signal b.

(** The sum of a list of prices. *)
Definition Qsum (l : list Q) : Q := foldr Qplus 0%Q l.

(** The arithmetic mean of the [w] prices ending at row [i]. *)
Definition trailing_mean (values : list Q) (w i : nat) : Q :=
  (Qsum (slice values (S i - w) (S i)) / inject_Z (Z.of_nat w))%Q.

(** [col] is the [w]-period moving average of [values]: undefined on the
    rows [i] with [i + 1 < w], the trailing mean on all others. *)
Definition is_moving_average (values : list Q) (w : nat)
    (col : list (option Q)) : Prop :=
  length col = length values
  ∧ ∀ i, (i < length values)%nat →
      ((S i < w)%nat → col !! i = Some None)
      ∧ ((w <= S i)%nat →
         length (slice values (S i - w) (S i)) = w
         ∧ ∃ m, col !! i = Some (Some m) ∧ (m == trailing_mean values w i)%Q).

(** The running sum and count describe the window [values[a:b)]. *)
Definition window_state (values : list Q) (st : Q * nat) (a b : nat) : Prop :=
  st.2 = (b - a)%nat ∧ (st.1 == Qsum (slice values a b))%Q.

(** Both averages exist on row [i], with values [p.1] (short) and [p.2]
    (long). *)
Definition defined_at (short_col long_col : list (option Q)) (i : nat)
    (p : Q * Q) : Prop :=
  short_col !! i = Some (Some p.1) ∧ long_col !! i = Some (Some p.2).

Definition undefined_at (short_col long_col : list (option Q)) (i : nat)
  : Prop :=
  ∀ p, ¬ defined_at short_col long_col i p.

(** Row [j] is the previous defined period of row [i]: the last row before
    [i] on which both averages exist. *)
Definition previous_defined (short_col long_col : list (option Q))
    (i j : nat) (p : Q * Q) : Prop :=
  (j < i)%nat
  ∧ defined_at short_col long_col j p
  ∧ ∀ k, (j < k)%nat → (k < i)%nat → undefined_at short_col long_col k.

(** The short average was at or below the long one on the previous defined
    period and is strictly above it on row [i]. *)
Definition golden_cross (short_col long_col : list (option Q)) (i : nat)
  : Prop :=
  ∃ j prev cur,
    previous_defined short_col long_col i j prev
    ∧ defined_at short_col long_col i cur
    ∧ (prev.1 <= prev.2)%Q ∧ (cur.2 < cur.1)%Q.

(** The short average was at or above the long one on the previous defined
    period and is strictly below it on row [i]. *)
Definition death_cross (short_col long_col : list (option Q)) (i : nat)
  : Prop :=
  ∃ j prev cur,
    previous_defined short_col long_col i j prev
    ∧ defined_at short_col long_col i cur
    ∧ (prev.2 <= prev.1)%Q ∧ (cur.1 < cur.2)%Q.

(** The value lines 100-105 assign: 1, -1, or the initial 0. *)
Definition crossover (prev cur : Q * Q) : Z :=
  if Qle_bool prev.1 prev.2 && Qltb cur.2 cur.1 then 1
  else if Qle_bool prev.2 prev.1 && Qltb cur.1 cur.2 then -1
  else 0.

(** The signal column written row by row, carrying the last defined pair
    of averages seen so far. *)
Fixpoint signals_from (prev : option (Q * Q))
    (short_col long_col : list (option Q)) : list Z :=
  match short_col, long_col with
  | s :: short_col', l :: long_col' =>
      match s, l with
      | Some a, Some b =>
          match prev with
          | Some p => crossover p (a, b)
          | None => 0
          end :: signals_from (Some (a, b)) short_col' long_col'
      | _, _ => 0 :: signals_from prev short_col' long_col'
      end
  | _, _ => []
  end.

(** What [signals_from] puts on row [i], by the rows before it. *)
Definition signal_cases (prev : option (Q * Q))
    (short_col long_col : list (option Q)) (i : nat) (v : Z) : Prop :=
  (∃ j p cur, previous_defined short_col long_col i j p
              ∧ defined_at short_col long_col i cur ∧ v = crossover p cur)
  ∨ (∃ p cur, prev = Some p
              ∧ (∀ k, (k < i)%nat → undefined_at short_col long_col k)
              ∧ defined_at short_col long_col i cur ∧ v = crossover p cur)
  ∨ (v = 0 ∧ undefined_at short_col long_col i)
  ∨ (v = 0 ∧ prev = None
     ∧ ∀ k, (k < i)%nat → undefined_at short_col long_col k).

(** A frame with the averages of windows 1 and 2 over the prices
    [3, 1, 4]. *)
Definition crossing_frame : Frame :=
  mkFrame [3; 1; 4]%Q
    (<[2 := [None; Some 2; Some (5 # 2)]%Q]>
       (<[1 := [Some 3; Some 1; Some 4]%Q]> ∅)).

(** ** Further predicates on runs *)

(** A snapshot taken on a row: its label and price are the row's and its
    value is the cash plus the shares at that price. *)
Definition snapshot_of_row (s : Snapshot) (row : Row) : Prop :=
  s_Date s = Date row
  ∧ s_Price s = Close row
  ∧ s_Portfolio_Value s = (s_Cash s + inject_Z (s_Shares s) * s_Price s)%Q.

(** Cash and shares as the last trade of a log left them. *)
Definition after_last_trade (capital : Q) (log : list Trade) : Q * Z :=
  match last log with
  | Some t => (t_Cash_After t, t_Shares_After t)
  | None => (capital, 0)
  end.

(** The fields of one trade dictionary agree with each other. *)
Definition trade_consistent (r : Q) (t : Trade) : Prop :=
  0 < t_Shares t
  ∧ match t_Action t with
    | BUY =>
        t_Cost t = Some (inject_Z (t_Shares t) * t_Price t)%Q
        ∧ t_Proceeds t = None
        ∧ t_Shares_After t = t_Shares t
    | SELL =>
        t_Proceeds t = Some (inject_Z (t_Shares t) * t_Price t)%Q
        ∧ t_Cost t = None
        ∧ t_Commission t = (inject_Z (t_Shares t) * t_Price t * r)%Q
        ∧ t_Shares_After t = 0
    end.

(** A trade was made on a row of the data that carries its signal, at
    that row's price. *)
Definition trade_on_signal (data : list Row) (t : Trade) : Prop :=
  ∃ row, row ∈ data
         ∧ t_Date t = Date row
         ∧ t_Price t = Close row
         ∧ Signal row = match t_Action t with
                        | BUY => buy_signal
                        | SELL => sell_signal
                        end.

(** A SELL sells what the trade before it left in the portfolio. *)
Definition sells_match (log : list Trade) : Prop :=
  ∀ i b s, log !! i = Some b → log !! S i = Some s →
           t_Action s = SELL → t_Shares s = t_Shares_After b.

Definition trades_ok (r capital : Q) (data : list Row) (st : Portfolio)
  : Prop :=
  (cash st, shares st) = after_last_trade capital (trade_log st)
  ∧ Forall (trade_consistent r) (trade_log st)
  ∧ Forall (trade_on_signal data) (trade_log st)
  ∧ sells_match (trade_log st).

(** The last snapshot, if any, shows the portfolio as it is. *)
Definition snapshot_current (st : Portfolio) : Prop :=
  match last (portfolio_values st) with
  | Some s => s_Cash s = cash st ∧ s_Shares s = shares st
  | None => True
  end.

(** The snapshot of a row on which nothing is held. *)
Definition idle_snapshot (capital : Q) (row : Row) : Snapshot :=
  mkSnapshot (Date row) capital 0 (Close row)
    (capital + inject_Z 0 * Close row)%Q.

(** A drawdown between -100% and 0. *)
Definition drawdown_in_range (x : option num) : Prop :=
  ∃ d, x = Some (Fin d) ∧ (- (1) <= d)%Q ∧ (d <= 0)%Q.

(** ** Further predicates on the strategy *)

(** No Sell signal on the rows after [j] up to and including [i]. *)
Definition no_sell_between (signal : list Z) (j i : nat) : Prop :=
  ∀ k, (j < k)%nat → (k <= i)%nat → signal !! k ≠ Some sell_signal.

(** The last Buy or Sell signal up to row [i] is a Buy. *)
Definition in_position (signal : list Z) (i : nat) : Prop :=
  ∃ j, (j <= i)%nat ∧ signal !! j = Some buy_signal
       ∧ no_sell_between signal j i.

(** No Sell signal on the rows up to and including [i]. *)
Definition no_sell_until (signal : list Z) (i : nat) : Prop :=
  ∀ k, (k <= i)%nat → signal !! k ≠ Some sell_signal.

(** [df.iloc[:k]]: the first [k] rows of a frame. *)
Definition head_rows (k : nat) (data : Frame) : Frame :=
  mkFrame (take k (close data)) (take k <$> ma data).

(** ** data.py: validation of the downloaded prices *)

(** The downloaded frame: its number of rows and its named columns, in
    order; a missing value (NaN) is [None]. *)
Record PriceData : Set := mkPriceData {
  n_rows : nat;
  columns : list (string * list (option Q))
}.

(** [data.empty]: no row or no column. *)
Definition frame_empty (data : PriceData) : bool :=
  (n_rows data =? 0)%nat
  || match columns data with [] => true | _ => false end.

(** [col.isnull().sum() > 0]. *)
Definition has_missing (col : list (option Q)) : bool :=
  existsb (fun x => match x with None => true | Some _ => false end) col.

(** [fillna(method='ffill')] on one column: a missing value takes the last
    value seen above it, if there is one. *)
Fixpoint ffill_from (last_seen : option Q) (col : list (option Q))
  : list (option Q) :=
  match col with
  | [] => []
  | x :: col' =>
      let y := match x with Some _ => x | None => last_seen end in
      y :: ffill_from y col'
  end.

Definition ffill (col : list (option Q)) : list (option Q) :=
  ffill_from None col.

(** [validate_data], without its printed warnings. *)
Definition validate_data (data : PriceData) : result PriceData :=
  if frame_empty data then Raise ValueError
  else if existsb (fun c => has_missing c.2) (columns data)
  then Ok (mkPriceData (n_rows data)
             ((fun c => (c.1, ffill c.2)) <$> columns data))
  else Ok data.

(** [col'] is [col] with every gap filled from above: the same length,
    still missing exactly on the rows that have no value at or above
    them, and elsewhere the nearest value at or above the row. *)
Definition forward_filled (col col' : list (option Q)) : Prop :=
  length col' = length col
  ∧ ∀ i,
      (col' !! i = Some None ↔
         (i < length col)%nat ∧ ∀ j, (j <= i)%nat → col !! j = Some None)
      ∧ ∀ v, col' !! i = Some (Some v) ↔
               ∃ j, (j <= i)%nat ∧ col !! j = Some (Some v)
                    ∧ ∀ k, (j < k)%nat → (k <= i)%nat → col !! k = Some None.

(** ** main.py: the buy-and-hold curve of the equity plot *)

(** Lines 78-83 of [create_equity_curve_plot]: the column
    ['Buy_Hold_Value']. *)
Definition buy_hold_curve (out : Outcome) : result (list num) :=
  m ← getitem (results out);
  initial_price ← iloc (head (s_Price <$> snapshots out));
  let shares_bh := fdiv (initial_capital m) initial_price in
  Ok ((fun s => nlift (fun x => x * s_Price s)%Q shares_bh)
        <$> snapshots out).

(** Every row up to and including [i] is missing. *)
Definition all_missing (col : list (option Q)) (i : nat) : Prop :=
  ∀ j, (j <= i)%nat → col !! j = Some None.

(** Row [j] holds [v] and the rows after it up to [i] are missing. *)
Definition last_value (col : list (option Q)) (i : nat) (v : Q) : Prop :=
  ∃ j, (j <= i)%nat ∧ col !! j = Some (Some v)
       ∧ ∀ k, (j < k)%nat → (k <= i)%nat → col !! k = Some None.

(** * Properties *)

(** ** Truncation and floor *)

Lemma Qeq_bool_false_iff (a b : Q) : Qeq_bool a b = false ↔ ¬ (a == b)%Q.
Proof.
  split.
  - apply Qeq_bool_neq.
  - intros H. destruct (Qeq_bool a b) eqn:E; [|reflexivity].
    apply Qeq_bool_iff in E. contradiction.
Qed.

Lemma Qltb_lt (a b : Q) : Qltb a b = true ↔ (a < b)%Q.
Proof.
  unfold Qltb. rewrite negb_true_iff. split.
  - intros H. apply Qnot_le_lt. intros Hle.
    apply Qle_bool_iff in Hle. congruence.
  - intros H. destruct (Qle_bool b a) eqn:E; [|reflexivity].
    apply Qle_bool_iff in E. apply Qlt_not_le in H. contradiction.
Qed.



(** ** The simulator, one period at a time *)




(** C3: on a Sell signal with shares held, cash is credited the proceeds
    [shares * price] less the commission [proceeds * r], a SELL trade is
    logged, and no share is left. *)
Theorem sell_when_invested (r : Q) (st : Portfolio) (row : Row) :
  Signal row = sell_signal →
  0 < shares st →
  let price := Close row in
  let proceeds := (inject_Z (shares st) * price)%Q in
  let commission_cost := (proceeds * r)%Q in
  let cash_after := (cash st + (proceeds - commission_cost))%Q in
  ∃ st',
    execute_trade r st row = Ok st'
    ∧ step r st row = Ok (record_value st' row)
    ∧ cash st' = cash_after
    ∧ shares st' = 0
    ∧ trade_log st' =
        trade_log st ++
          [mkTrade (Date row) SELL (shares st) price None (Some proceeds)
                   commission_cost cash_after 0]
    ∧ portfolio_values st' = portfolio_values st.
Proof.
  intros Hsig Hsh price proceeds commission_cost cash_after.
  unfold step, execute_trade. rewrite Hsig. simpl.
  destruct (Z.eqb_spec (shares st) 0) as [Hz|_]; [lia|].
  destruct (Z.ltb_spec 0 (shares st)) as [_|Hc]; [|lia].
  simpl. eexists. repeat split.
Qed.

Lemma sell_when_invested_witness :
  ∃ st',
    execute_trade (1 # 1000) (mkPortfolio 90 99 [] []) (mkRow 2 100 (-1) 0)
      = Ok st'
    ∧ shares st' = 0
    ∧ cash st' = (90 + (inject_Z 99 * 100 - inject_Z 99 * 100 * (1 # 1000)))%Q.
Proof.
  destruct (sell_when_invested (1 # 1000) (mkPortfolio 90 99 [] [])
              (mkRow 2 100 (-1) 0) eq_refl eq_refl)
    as (st' & H1 & _ & H3 & H4 & _).
  exists st'. repeat split; assumption.
Defined.

(** ** Cash after a Buy *)

Lemma inject_Z_pos (n : Z) : 0 < n → (0 < inject_Z n)%Q.
Proof. intros H. unfold Qlt, inject_Z. simpl. lia. Qed.

Lemma inject_Z_nonneg (n : Z) : 0 <= n → (0 <= inject_Z n)%Q.
Proof. intros H. unfold Qle, inject_Z. simpl. lia. Qed.

(** One snapshot is appended per period. *)
Lemma simulate_snapshots_length (r : Q) (data : list Row) :
  ∀ st st', simulate r st data = Ok st' →
  length (portfolio_values st')
  = (length (portfolio_values st) + length data)%nat.
Proof.
  induction data as [|row data IH]; intros st st' H; simpl in H.
  - injection H as <-. simpl. lia.
  - unfold step in H.
    destruct (execute_trade r st row) as [st1|] eqn:Hex; [|discriminate].
    simpl in H. apply IH in H. rewrite H.
    assert (portfolio_values st1 = portfolio_values st) as Hpv.
    { unfold execute_trade in Hex.
      destruct ((Signal row =? 1) && (shares st =? 0)).
      - destruct (int_of_quotient _ _) as [n|]; [|discriminate].
        simpl in Hex. destruct (0 <? n); injection Hex as <-; reflexivity.
      - destruct ((Signal row =? -1) && (0 <? shares st));
          injection Hex as <-; reflexivity. }
    unfold record_value. simpl. rewrite length_app, Hpv. simpl. lia.
Qed.

(** C4, on binary64: with initial capital 1000, commission rate 0.001 and
    one period at the price 5.4 carrying a Buy signal (a positive capital,
    a rate in [0, 1) and a positive price), the run completes with 185
    shares bought and the cash [-2^-43], which is negative, in the
    portfolio, in the trade record and in the period's snapshot.  The
    quotient of 999 by the float 5.4 is below 185 and rounds to 185, and
    185 shares cost more than the 999 available. *)
Theorem rounded_quotient_overdraws_cash :
  ∃ st,
    simulate64 (1 / 1000)%float (initial_portfolio64 1000%float)
      [mkRow64 0 (54 / 10)%float 1 0] = Ok st
    ∧ shares64 st = 185
    ∧ cash64 st = (-0x1p-43)%float
    ∧ (cash64 st <? 0)%float = true
    ∧ t_Cash_After64 <$> trade_log64 st = [(-0x1p-43)%float]
    ∧ s_Cash64 <$> portfolio_values64 st = [(-0x1p-43)%float]
    ∧ (float_value (1000 - 1000 * (1 / 1000))%float
       / float_value (54 / 10)%float < 185)%Q
    ∧ ((1000 - 1000 * (1 / 1000)) / (54 / 10))%float = 185%float.
Proof.
  eexists. split; [vm_compute; reflexivity|].
  repeat split; vm_compute; reflexivity.
Qed.

(** ** The Flat/Invested gate *)

Lemma execute_trade_gated (r : Q) (st st' : Portfolio) (row : Row) :
  execute_trade r st row = Ok st' → gated st row st'.
Proof.
  unfold execute_trade, gated. intros H.
  destruct (Z.eqb_spec (Signal row) 1) as [Hb|Hb]; simpl in H.
  - destruct (Z.eqb_spec (shares st) 0) as [Hz|Hz]; simpl in H.
    + destruct (int_of_quotient _ _) as [n|]; [|discriminate]. simpl in H.
      destruct (Z.ltb_spec 0 n) as [Hn|Hn]; injection H as <-.
      * right. left. eexists. simpl.
        split; [reflexivity|]. split; [reflexivity|].
        split; [eexists; reflexivity|].
        split; [exact Hb|]. split; [exact Hz|lia].
      * left. reflexivity.
    + rewrite Hb in H. simpl in H. injection H as <-. left. reflexivity.
  - destruct (Z.eqb_spec (Signal row) (-1)) as [Hs|Hs]; simpl in H.
    + destruct (Z.ltb_spec 0 (shares st)) as [Hp|Hp]; injection H as <-.
      * right. right. eexists. simpl.
        split; [reflexivity|]. split; [reflexivity|].
        split; [eexists; reflexivity|].
        split; [exact Hs|]. split; [exact Hp|reflexivity].
      * left. reflexivity.
    + injection H as <-. left. reflexivity.
Qed.

Lemma execute_trade_ignored_buy (r : Q) (st : Portfolio) (row : Row) :
  Signal row = buy_signal → shares st ≠ 0 → execute_trade r st row = Ok st.
Proof.
  intros Hsig Hsh. unfold execute_trade. rewrite Hsig. simpl.
  destruct (Z.eqb_spec (shares st) 0) as [Hz|_]; [contradiction|].
  reflexivity.
Qed.

Lemma execute_trade_ignored_sell (r : Q) (st : Portfolio) (row : Row) :
  Signal row = sell_signal → shares st <= 0 → execute_trade r st row = Ok st.
Proof.
  intros Hsig Hsh. unfold execute_trade. rewrite Hsig. simpl.
  destruct (Z.ltb_spec 0 (shares st)) as [Hc|_]; [lia|].
  reflexivity.
Qed.

Lemma alternating_snoc (log : list Trade) (t : Trade) :
  alternating log →
  t_Action t = (if Nat.even (length log) then BUY else SELL) →
  alternating (log ++ [t]).
Proof.
  intros Hlog Ht i u Hi.
  destruct (Nat.lt_ge_cases i (length log)) as [Hlt|Hge].
  - rewrite lookup_app_l in Hi by exact Hlt. apply Hlog. exact Hi.
  - rewrite lookup_app_r in Hi by exact Hge.
    destruct (i - length log)%nat as [|k] eqn:Hk; simpl in Hi.
    + injection Hi as <-. replace i with (length log) by lia. exact Ht.
    + discriminate.
Qed.

Lemma gated_position_ok (st st' : Portfolio) (row : Row) :
  gated st row st' → position_ok st → position_ok st'.
Proof.
  intros [->|[(t & Hlog & Ha & Hk & _ & Hz & Hp)
             |(t & Hlog & Ha & Hk & _ & Hp & Hz)]]
         (Halt & Hnn & Heven & Hkeys);
    [unfold position_ok; tauto| |].
  - assert (He : Nat.even (length (trade_log st)) = true) by tauto.
    unfold position_ok. rewrite Hlog, length_app. simpl.
    split; [|split; [lia|split]].
    + apply alternating_snoc; [exact Halt|]. rewrite He. exact Ha.
    + replace (length (trade_log st) + 1)%nat with (S (length (trade_log st)))
        by lia.
      rewrite Nat.even_succ, <- Nat.negb_even, He. simpl.
      split; [lia|discriminate].
    + apply Forall_app. split; [exact Hkeys|]. constructor; [exact Hk|].
      constructor.
  - assert (He : Nat.even (length (trade_log st)) = false).
    { destruct (Nat.even (length (trade_log st))); [|reflexivity].
      assert (shares st = 0) by tauto. lia. }
    unfold position_ok. rewrite Hlog, length_app. simpl.
    split; [|split; [lia|split]].
    + apply alternating_snoc; [exact Halt|]. rewrite He. exact Ha.
    + replace (length (trade_log st) + 1)%nat with (S (length (trade_log st)))
        by lia.
      rewrite Nat.even_succ, <- Nat.negb_even, He. simpl.
      split; [reflexivity|intros _; exact Hz].
    + apply Forall_app. split; [exact Hkeys|]. constructor; [exact Hk|].
      constructor.
Qed.

Lemma record_value_position_ok (st : Portfolio) (row : Row) :
  position_ok st → position_ok (record_value st row).
Proof. intros H. exact H. Qed.

Lemma simulate_position_ok (r : Q) (data : list Row) :
  ∀ st st', simulate r st data = Ok st' → position_ok st → position_ok st'.
Proof.
  induction data as [|row data IH]; intros st st' H Hst; simpl in H.
  - injection H as <-. exact Hst.
  - unfold step in H.
    destruct (execute_trade r st row) as [st1|] eqn:Hex; [|discriminate].
    simpl in H. apply (IH _ _ H). apply record_value_position_ok.
    exact (gated_position_ok _ _ _ (execute_trade_gated _ _ _ _ Hex) Hst).
Qed.

Lemma initial_portfolio_position_ok (capital : Q) :
  position_ok (initial_portfolio capital).
Proof.
  unfold position_ok. simpl. split; [|split; [lia|split; [tauto|constructor]]].
  intros i t Hi. rewrite lookup_nil in Hi. discriminate.
Qed.

Lemma alternating_no_repeat (log : list Trade) :
  alternating log → no_repeat log.
Proof.
  intros Hlog i a b Ha Hb.
  rewrite (Hlog _ _ Ha), (Hlog _ _ Hb), Nat.even_succ, <- Nat.negb_even.
  destruct (Nat.even i); discriminate.
Qed.

(** Only the [int] of a Buy that applies can raise. *)
Lemma step_raise (r : Q) (st : Portfolio) (row : Row) (e : exn) :
  step r st row = Raise e → Signal row = buy_signal ∧ shares st = 0.
Proof.
  unfold step, execute_trade, buy_signal.
  destruct (Z.eqb_spec (Signal row) 1) as [Hb|Hb];
    destruct (Z.eqb_spec (shares st) 0) as [Hz|Hz]; simpl.
  - tauto.
  - rewrite Hb. simpl. discriminate.
  - destruct ((Signal row =? -1) && (0 <? shares st)); discriminate.
  - destruct ((Signal row =? -1) && (0 <? shares st)); discriminate.
Qed.

(** C5: a BUY is executed only from a portfolio without shares and a SELL
    only from one with shares; a Buy signal while shares are held, or a
    Sell signal while none are, changes nothing and raises nothing; hence
    in every run the trade log alternates BUY, SELL, BUY, ... and never
    repeats an action; a period can raise only on a Buy signal that
    applies. *)
Theorem trades_gated_and_alternate (r : Q) :
  (∀ st row st', execute_trade r st row = Ok st' → gated st row st')
  ∧ (∀ st row, Signal row = buy_signal → shares st ≠ 0 →
       step r st row = Ok (record_value st row))
  ∧ (∀ st row, Signal row = sell_signal → shares st <= 0 →
       step r st row = Ok (record_value st row))
  ∧ (∀ capital data st,
       simulate r (initial_portfolio capital) data = Ok st →
       alternating (trade_log st) ∧ no_repeat (trade_log st))
  ∧ (∀ st row e,
       step r st row = Raise e → Signal row = buy_signal ∧ shares st = 0).
Proof.
  split; [|split; [|split; [|split]]].
  - intros st row st'. apply execute_trade_gated.
  - intros st row Hsig Hsh. unfold step.
    rewrite (execute_trade_ignored_buy r st row Hsig Hsh). reflexivity.
  - intros st row Hsig Hsh. unfold step.
    rewrite (execute_trade_ignored_sell r st row Hsig Hsh). reflexivity.
  - intros capital data st Hsim.
    destruct (simulate_position_ok r data _ _ Hsim
                (initial_portfolio_position_ok capital)) as (Halt & _).
    split; [exact Halt|apply alternating_no_repeat; exact Halt].
  - intros st row e. apply step_raise.
Qed.

Lemma trades_gated_and_alternate_witness :
  step (1 # 1000) (mkPortfolio 90 99 [] []) (mkRow 3 100 1 0)
    = Ok (record_value (mkPortfolio 90 99 [] []) (mkRow 3 100 1 0))
  ∧ step (1 # 1000) (initial_portfolio 10000) (mkRow 3 100 (-1) 0)
    = Ok (record_value (initial_portfolio 10000) (mkRow 3 100 (-1) 0))
  ∧ (∀ st, simulate (1 # 1000) (initial_portfolio 10000) flat_scenario = Ok st →
       alternating (trade_log st) ∧ no_repeat (trade_log st))
  ∧ Signal (mkRow 0 0 1 0) = buy_signal.
Proof.
  destruct (trades_gated_and_alternate (1 # 1000)) as (_ & Hb & Hs & Ha & Hr).
  split; [|split; [|split]].
  - apply Hb; [reflexivity|simpl; lia].
  - apply Hs; [reflexivity|simpl; lia].
  - intros st. apply Ha.
  - apply (Hr (initial_portfolio 10000) (mkRow 0 0 1 0) OverflowError).
    vm_compute. reflexivity.
Defined.

(** ** The three-period scenario *)

(** C6: capital 10000, commission rate 0.001, prices [100, 100, 100] and
    signals [Hold, Buy, Sell].  The Buy period pays a commission of 10 out
    of 10000, leaving 9990 available, buys 99 shares for 9900 and keeps 90
    in cash; the Sell period receives 9900, pays 9.9 and ends with 9980.1
    in cash and no shares; the final value is 9980.1 and the total return
    -0.199 percent. *)
Theorem flat_price_round_trip (annualized_std : list (option num) → num) :
  ∃ buy sell s0 s1 s2 m,
    run_backtest annualized_std 10000 (1 # 1000) flat_scenario
      = Ok (mkOutcome [buy; sell] [s0; s1; s2] (Some m))
    ∧ (t_Action buy = BUY
       ∧ (t_Commission buy == 10)%Q
       ∧ (10000 - t_Commission buy == 9990)%Q
       ∧ t_Shares buy = 99
       ∧ (∃ cost, t_Cost buy = Some cost ∧ (cost == 9900)%Q)
       ∧ (t_Cash_After buy == 90)%Q
       ∧ t_Shares_After buy = 99)
    ∧ (t_Action sell = SELL
       ∧ t_Shares sell = 99
       ∧ (∃ proceeds, t_Proceeds sell = Some proceeds ∧ (proceeds == 9900)%Q)
       ∧ (t_Commission sell == 99 # 10)%Q
       ∧ (t_Cash_After sell == 99801 # 10)%Q
       ∧ t_Shares_After sell = 0)
    ∧ (s_Shares s0 = 0 ∧ (s_Cash s0 == 10000)%Q
       ∧ s_Shares s1 = 99 ∧ (s_Cash s1 == 90)%Q
       ∧ s_Shares s2 = 0 ∧ (s_Cash s2 == 99801 # 10)%Q
       ∧ (s_Portfolio_Value s2 == 99801 # 10)%Q)
    ∧ (final_value m == 99801 # 10)%Q
    ∧ (∃ pct, total_return_pct m = Fin pct ∧ (pct == - (199 # 1000))%Q)
    ∧ total_trades m = 2
    ∧ trade_pairs m = 1.
Proof.
  do 6 eexists. split; [cbv; reflexivity|].
  cbn [t_Action t_Commission t_Shares t_Cost t_Cash_After t_Shares_After
       t_Proceeds s_Shares s_Cash s_Portfolio_Value final_value
       total_return_pct total_trades trade_pairs].
  repeat split; try reflexivity;
    try (eexists; split; [reflexivity|reflexivity]).
Qed.

(** ** The ['Position'] column is never read *)

Lemma step_same_but_position (r : Q) (st : Portfolio) (a b : Row) :
  same_but_position a b → step r st a = step r st b.
Proof.
  intros (Hd & Hc & Hs).
  unfold step, execute_trade, record_value. rewrite Hd, Hc, Hs. reflexivity.
Qed.

Lemma simulate_same_but_position (r : Q) (d1 d2 : list Row) :
  Forall2 same_but_position d1 d2 →
  ∀ st, simulate r st d1 = simulate r st d2.
Proof.
  induction 1 as [|a b d1 d2 Hab _ IH]; intros st; simpl; [reflexivity|].
  rewrite (step_same_but_position r st a b Hab).
  destruct (step r st b) as [st'|e]; simpl; [apply IH|reflexivity].
Qed.

Lemma head_same_but_position (d1 d2 : list Row) :
  Forall2 same_but_position d1 d2 → Close <$> head d1 = Close <$> head d2.
Proof.
  intros [|a b ? ? (_ & Hc & _) _]; simpl; [reflexivity|].
  rewrite Hc. reflexivity.
Qed.

Lemma last_same_but_position (d1 d2 : list Row) :
  Forall2 same_but_position d1 d2 → Close <$> last d1 = Close <$> last d2.
Proof.
  induction 1 as [|a b d1 d2 (_ & Hc & _) Hrest IH]; [reflexivity|].
  destruct Hrest as [|a' b' d1 d2 Hab' Hrest].
  - simpl. rewrite Hc. reflexivity.
  - exact IH.
Qed.

Lemma metrics_same_but_position (annualized_std : list (option num) → num)
    (capital : Q) (log : list Trade) (values : list Snapshot)
    (d1 d2 : list Row) :
  Forall2 same_but_position d1 d2 →
  calculate_performance_metrics annualized_std capital log values d1
  = calculate_performance_metrics annualized_std capital log values d2.
Proof.
  intros H. unfold calculate_performance_metrics.
  destruct (last values) as [final|]; [|reflexivity].
  pose proof (head_same_but_position _ _ H) as Hh.
  pose proof (last_same_but_position _ _ H) as Hl.
  destruct (head d1) as [f1|], (head d2) as [f2|]; try discriminate;
    simpl in Hh; [|reflexivity].
  destruct (last d1) as [l1|], (last d2) as [l2|]; try discriminate;
    simpl in Hl; [|reflexivity].
  injection Hh as Hh. injection Hl as Hl. simpl. rewrite Hh, Hl. reflexivity.
Qed.

Lemma iterrows_from_same_but_position (prices : list Q) :
  ∀ i signal position position',
    length position = length position' →
    Forall2 same_but_position
      (iterrows_from i prices signal position)
      (iterrows_from i prices signal position').
Proof.
  induction prices as [|p prices IH];
    intros i [|s signal] [|q position] [|q' position'] Hlen;
    try discriminate; simpl; try constructor.
  - repeat split.
  - apply IH. injection Hlen as Hlen. exact Hlen.
Qed.

(** C10: two inputs that differ only in their ['Position'] column give the
    same outcome of [run_backtest]: the same trade log, the same snapshots
    and the same metrics (or the same exception).  In particular the
    outcome on the frame [generate_signals] returns does not change when
    its ['Position'] column is replaced by any other. *)
Theorem position_column_ignored (annualized_std : list (option num) → num)
    (capital r : Q) :
  (∀ d1 d2,
     Forall2 same_but_position d1 d2 →
     run_backtest annualized_std capital r d1
     = run_backtest annualized_std capital r d2)
  ∧ (∀ df position',
       length (position_col df) = length position' →
       run_backtest annualized_std capital r (iterrows df)
       = run_backtest annualized_std capital r
           (iterrows (mkSignalFrame (frame df) (signal_col df) position'))).
Proof.
  assert (Hrows : ∀ d1 d2,
            Forall2 same_but_position d1 d2 →
            run_backtest annualized_std capital r d1
            = run_backtest annualized_std capital r d2).
  { intros d1 d2 H. unfold run_backtest.
    rewrite (simulate_same_but_position r d1 d2 H).
    destruct (simulate r (initial_portfolio capital) d2) as [st|e];
      simpl; [|reflexivity].
    rewrite (metrics_same_but_position annualized_std capital _ _ d1 d2 H).
    reflexivity. }
  split; [exact Hrows|].
  intros df position' Hlen. apply Hrows. unfold iterrows. simpl.
  apply iterrows_from_same_but_position. exact Hlen.
Qed.

Lemma position_column_ignored_witness :
  run_backtest (fun _ => NonFinite) 10000 (1 # 1000) flat_scenario
  = run_backtest (fun _ => NonFinite) 10000 (1 # 1000)
      [mkRow 0 100 0 0; mkRow 1 100 1 1; mkRow 2 100 (-1) 7]
  ∧ run_backtest (fun _ => NonFinite) 10000 (1 # 1000)
      (iterrows (mkSignalFrame crossing_frame [0; 0; 1] [0; 0; 1]))
    = run_backtest (fun _ => NonFinite) 10000 (1 # 1000)
        (iterrows (mkSignalFrame crossing_frame [0; 0; 1] [5; 5; 5])).
Proof.
  destruct (position_column_ignored (fun _ => NonFinite) 10000 (1 # 1000))
    as [Hrows Hframe].
  split.
  - apply Hrows. unfold flat_scenario. repeat constructor.
  - exact (Hframe (mkSignalFrame crossing_frame [0; 0; 1] [0; 0; 1])
             [5; 5; 5] eq_refl).
Defined.

(** ** Moving averages *)

Lemma Qsum_app (l1 l2 : list Q) : (Qsum (l1 ++ l2) == Qsum l1 + Qsum l2)%Q.
Proof.
  induction l1 as [|x l1 IH]; simpl.
  - lra.
  - rewrite IH. lra.
Qed.

Lemma slice_length {A : Type} (l : list A) (a b : nat) :
  (b <= length l)%nat → length (slice l a b) = (b - a)%nat.
Proof.
  intros H. unfold slice. rewrite length_take, length_drop. lia.
Qed.

Lemma slice_split {A : Type} (l : list A) (a b c : nat) :
  (a <= b)%nat → (b <= c)%nat → slice l a c = slice l a b ++ slice l b c.
Proof.
  intros Hab Hbc. unfold slice.
  replace (c - a)%nat with ((b - a) + (c - b))%nat by lia.
  rewrite <- take_take_drop, drop_drop.
  replace (a + (b - a))%nat with b by lia. reflexivity.
Qed.

Lemma foldl_add_mean (l : list Q) :
  ∀ st, (foldl add_mean st l).2 = (st.2 + length l)%nat
        ∧ ((foldl add_mean st l).1 == st.1 + Qsum l)%Q.
Proof.
  induction l as [|x l IH]; intros st; simpl.
  - split; [lia|lra].
  - destruct (IH (add_mean st x)) as [H2 H1]. rewrite H2, H1.
    unfold add_mean. simpl. split; [lia|lra].
Qed.

Lemma foldl_remove_mean (l : list Q) :
  ∀ st, (foldl remove_mean st l).2 = (st.2 - length l)%nat
        ∧ ((foldl remove_mean st l).1 == st.1 - Qsum l)%Q.
Proof.
  induction l as [|x l IH]; intros st; simpl.
  - split; [lia|lra].
  - destruct (IH (remove_mean st x)) as [H2 H1]. rewrite H2, H1.
    unfold remove_mean. simpl. split; [lia|lra].
Qed.

Lemma slide_window_state (values : list Q) (w i : nat) (st : Q * nat) :
  (0 < w)%nat → (i < length values)%nat →
  (i = 0%nat ∨ window_state values st (window_start w (i - 1)) i) →
  window_state values (slide_window values w i st) (window_start w i) (S i).
Proof.
  intros Hw Hi Hst. unfold slide_window, window_state, window_end.
  destruct ((i =? 0)%nat || (S (i - 1) <=? window_start w i)%nat) eqn:Hc.
  - destruct (foldl_add_mean (slice values (window_start w i) (S i)) (0%Q, O))
      as [H2 H1].
    rewrite H2, H1. simpl. rewrite slice_length by lia. split; [lia|lra].
  - apply orb_false_iff in Hc. destruct Hc as [Hi0 Hle].
    apply Nat.eqb_neq in Hi0. apply Nat.leb_gt in Hle.
    destruct Hst as [->|[Hn Hs]]; [contradiction|].
    replace (S (i - 1)) with i in * by lia.
    set (s0 := window_start w (i - 1)) in *.
    set (s := window_start w i) in *.
    assert (Hs0 : (s0 <= s)%nat) by (unfold s0, s, window_start; lia).
    destruct (foldl_remove_mean (slice values s0 s) st) as [R2 R1].
    destruct (foldl_add_mean (slice values i (S i))
                (foldl remove_mean st (slice values s0 s))) as [A2 A1].
    rewrite A2, A1, R2, R1, Hn, Hs.
    rewrite !slice_length by lia.
    split; [lia|].
    rewrite (slice_split values s0 s i) by lia.
    rewrite (slice_split values s i (S i)) by lia.
    rewrite !Qsum_app. lra.
Qed.

Lemma roll_mean_loop_length (values : list Q) (w minp : nat) :
  ∀ todo i st, length (roll_mean_loop values w minp todo i st) = todo.
Proof.
  induction todo as [|todo IH]; intros i st; simpl; [reflexivity|].
  rewrite IH. reflexivity.
Qed.

Lemma roll_mean_loop_lookup (values : list Q) (w : nat) :
  (0 < w)%nat →
  ∀ todo i st k,
    (i + todo <= length values)%nat →
    (i = 0%nat ∨ window_state values st (window_start w (i - 1)) i) →
    (k < todo)%nat →
    ∃ st', roll_mean_loop values w w todo i st !! k = Some (calc_mean w st')
           ∧ window_state values st' (window_start w (i + k)) (S (i + k)).
Proof.
  intros Hw. induction todo as [|todo IH]; intros i st k Hlen Hst Hk; [lia|].
  pose proof (slide_window_state values w i st Hw ltac:(lia) Hst) as Hnext.
  simpl. destruct k as [|k].
  - exists (slide_window values w i st). split; [reflexivity|].
    replace (i + 0)%nat with i by lia. exact Hnext.
  - destruct (IH (S i) (slide_window values w i st) k) as (st' & Hl & Hw');
      [lia| |lia|].
    + right. replace (S i - 1)%nat with i by lia. exact Hnext.
    + exists st'. split; [exact Hl|].
      replace (i + S k)%nat with (S i + k)%nat by lia. exact Hw'.
Qed.

Lemma roll_mean_is_moving_average (values : list Q) (w : nat) :
  (0 < w)%nat → is_moving_average values w (roll_mean values w).
Proof.
  intros Hw. unfold is_moving_average, roll_mean.
  split; [apply roll_mean_loop_length|].
  intros i Hi.
  destruct (roll_mean_loop_lookup values w Hw (length values) 0 (0%Q, O) i)
    as (st' & Hl & Hn & Hs); [lia|left; reflexivity|exact Hi|].
  simpl in Hn, Hs. unfold window_start in Hn, Hs.
  rewrite Hl. unfold calc_mean. split.
  - intros Hlt.
    destruct (Nat.leb_spec w st'.2) as [Hc|_]; [lia|]. reflexivity.
  - intros Hge. split; [rewrite slice_length by lia; lia|].
    destruct (Nat.leb_spec w st'.2) as [_|Hc]; [|lia].
    destruct (Nat.ltb_spec 0 st'.2) as [_|Hc]; [|lia].
    simpl. eexists. split; [reflexivity|].
    unfold trailing_mean. rewrite Hs.
    replace st'.2 with w by lia. reflexivity.
Qed.

Lemma rolling_mean_nonneg (w : Z) (values : list Q) :
  0 <= w → rolling_mean w values = Ok (roll_mean values (Z.to_nat w)).
Proof.
  intros H. unfold rolling_mean.
  destruct (Z.ltb_spec w 0) as [Hc|_]; [lia|reflexivity].
Qed.

Lemma rolling_mean_negative (w : Z) (values : list Q) :
  w < 0 → rolling_mean w values = Raise ValueError.
Proof.
  intros H. unfold rolling_mean.
  destruct (Z.ltb_spec w 0) as [_|Hc]; [reflexivity|lia].
Qed.

Lemma calculate_moving_averages_columns (data : Frame) (sw lw : Z) :
  0 <= sw → 0 <= lw →
  ∃ df,
    calculate_moving_averages data sw lw = Ok df
    ∧ close df = close data
    ∧ ma df !! sw = Some (roll_mean (close data) (Z.to_nat sw))
    ∧ ma df !! lw = Some (roll_mean (close data) (Z.to_nat lw)).
Proof.
  intros Hs Hl. unfold calculate_moving_averages.
  rewrite (rolling_mean_nonneg sw _ Hs). simpl.
  rewrite (rolling_mean_nonneg lw _ Hl). simpl.
  eexists. split; [reflexivity|]. simpl. split; [reflexivity|].
  split; [|apply lookup_insert_eq].
  destruct (decide (lw = sw)) as [->|Hne].
  - apply lookup_insert_eq.
  - rewrite lookup_insert_ne by exact Hne. apply lookup_insert_eq.
Qed.

(** C7: for positive windows, each column [MA_w] that
    [calculate_moving_averages] adds has one entry per price, is undefined
    on the rows [i] with [i + 1 < w] and defined on all later rows, where
    it is the arithmetic mean of the [w] prices ending at row [i]. *)
Theorem moving_average_defined_from_window (data : Frame) (sw lw : Z) :
  0 < sw → 0 < lw →
  ∃ df short_col long_col,
    calculate_moving_averages data sw lw = Ok df
    ∧ close df = close data
    ∧ ma df !! sw = Some short_col
    ∧ ma df !! lw = Some long_col
    ∧ is_moving_average (close data) (Z.to_nat sw) short_col
    ∧ is_moving_average (close data) (Z.to_nat lw) long_col.
Proof.
  intros Hs Hl.
  destruct (calculate_moving_averages_columns data sw lw)
    as (df & Hdf & Hc & Hsc & Hlc); [lia|lia|].
  exists df, (roll_mean (close data) (Z.to_nat sw)),
         (roll_mean (close data) (Z.to_nat lw)).
  split; [exact Hdf|]. split; [exact Hc|]. split; [exact Hsc|].
  split; [exact Hlc|].
  split; apply roll_mean_is_moving_average; lia.
Qed.

Lemma moving_average_defined_from_window_witness :
  ∃ df short_col long_col,
    calculate_moving_averages (mkFrame [1; 2; 3; 6]%Q ∅) 2 3 = Ok df
    ∧ ma df !! 2 = Some short_col
    ∧ ma df !! 3 = Some long_col
    ∧ is_moving_average [1; 2; 3; 6]%Q 2 short_col
    ∧ is_moving_average [1; 2; 3; 6]%Q 3 long_col.
Proof.
  destruct (moving_average_defined_from_window
              (mkFrame [1; 2; 3; 6]%Q ∅) 2 3 eq_refl eq_refl)
    as (df & sc & lc & H1 & _ & H3 & H4 & H5 & H6).
  exists df, sc, lc. exact (conj H1 (conj H3 (conj H4 (conj H5 H6)))).
Defined.

(** ** Window validation *)

(** C8, as the code has it: [calculate_moving_averages] checks nothing
    itself.  For all non-negative windows, also when [short >= long], it
    returns the frame with the prices unchanged and the two columns
    [MA_short] and [MA_long], each the rolling mean of the prices over its
    window; it raises only the ValueError of pandas' [rolling] on a
    negative window.  The check [SHORT_MA < LONG_MA] is
    [validate_config]'s, which returns [False] and raises nothing. *)
Theorem windows_not_validated (data : Frame) (sw lw : Z) :
  (is_ok (calculate_moving_averages data sw lw) ↔ 0 <= sw ∧ 0 <= lw)
  ∧ (0 <= sw → 0 <= lw →
     ∃ df,
       calculate_moving_averages data sw lw = Ok df
       ∧ close df = close data
       ∧ ma df !! sw = Some (roll_mean (close data) (Z.to_nat sw))
       ∧ ma df !! lw = Some (roll_mean (close data) (Z.to_nat lw)))
  ∧ (sw < 0 ∨ lw < 0 →
     calculate_moving_averages data sw lw = Raise ValueError)
  ∧ (∀ capital commission,
       sw >= lw → validate_config sw lw capital commission = false).
Proof.
  split; [split|split; [|split]].
  - intros Hok. unfold calculate_moving_averages in Hok.
    destruct (Z.lt_ge_cases sw 0) as [Hs|Hs].
    { rewrite (rolling_mean_negative sw _ Hs) in Hok. destruct Hok. }
    rewrite (rolling_mean_nonneg sw _ Hs) in Hok. simpl in Hok.
    destruct (Z.lt_ge_cases lw 0) as [Hl|Hl]; [|lia].
    rewrite (rolling_mean_negative lw _ Hl) in Hok. destruct Hok.
  - intros [Hs Hl].
    destruct (calculate_moving_averages_columns data sw lw Hs Hl)
      as (df & -> & _). exact I.
  - apply calculate_moving_averages_columns.
  - intros H. unfold calculate_moving_averages.
    destruct (Z.lt_ge_cases sw 0) as [Hs|Hs].
    + rewrite (rolling_mean_negative sw _ Hs). reflexivity.
    + rewrite (rolling_mean_nonneg sw _ Hs). simpl.
      rewrite (rolling_mean_negative lw) by lia. reflexivity.
  - intros capital commission H. unfold validate_config, config_errors.
    destruct (Z.geb_spec sw lw) as [_|Hc]; [reflexivity|lia].
Qed.

Lemma windows_not_validated_witness :
  (∃ df,
     calculate_moving_averages (mkFrame [1; 2; 3; 6]%Q ∅) 3 2 = Ok df
     ∧ close df = [1; 2; 3; 6]%Q
     ∧ ma df !! 3 = Some (roll_mean [1; 2; 3; 6]%Q 3)
     ∧ ma df !! 2 = Some (roll_mean [1; 2; 3; 6]%Q 2))
  ∧ calculate_moving_averages (mkFrame [1; 2; 3; 6]%Q ∅) (-1) 2
    = Raise ValueError
  ∧ validate_config 3 2 10000 (1 # 1000) = false.
Proof.
  destruct (windows_not_validated (mkFrame [1; 2; 3; 6]%Q ∅) 3 2)
    as (_ & Hcols & _ & Hv).
  destruct (windows_not_validated (mkFrame [1; 2; 3; 6]%Q ∅) (-1) 2)
    as (_ & _ & Hneg & _).
  split; [|split].
  - apply Hcols; lia.
  - apply Hneg. left. reflexivity.
  - apply Hv. lia.
Defined.

(** C8 as the specification states it fails: with [short = 3 >= long = 2]
    the calculator returns a frame holding both columns. *)
Lemma short_not_less_than_long_accepted :
  3 >= 2
  ∧ ∃ df short_col long_col,
      calculate_moving_averages (mkFrame [1; 2; 3; 6]%Q ∅) 3 2 = Ok df
      ∧ ma df !! 3 = Some short_col
      ∧ ma df !! 2 = Some long_col.
Proof.
  split; [lia|].
  destruct (calculate_moving_averages_columns (mkFrame [1; 2; 3; 6]%Q ∅) 3 2)
    as (df & H1 & _ & H3 & H4); [lia|lia|].
  exists df. eexists. eexists.
  split; [exact H1|]. split; [exact H3|exact H4].
Qed.

(** ** Crossover signals *)

Lemma crossover_assign_app (prev cur : Q * Q) (j : nat) (pre : list Z)
    (n : nat) :
  crossover_assign (j, prev) (length pre, cur) (pre ++ 0 :: replicate n 0)
  = (pre ++ [crossover prev cur]) ++ replicate n 0.
Proof.
  unfold crossover_assign, crossover. simpl.
  rewrite <- app_assoc. simpl.
  destruct (Qle_bool prev.1 prev.2 && Qltb cur.2 cur.1).
  - rewrite insert_app_r_alt by lia.
    replace (length pre - length pre)%nat with O by lia. reflexivity.
  - destruct (Qle_bool prev.2 prev.1 && Qltb cur.1 cur.2).
    + rewrite insert_app_r_alt by lia.
      replace (length pre - length pre)%nat with O by lia. reflexivity.
    + reflexivity.
Qed.

(** A row that [dropna] removed keeps its 0: move it from the rows still
    to do into the prefix already written. *)
Ltac skipped_row H :=
  let IH := fresh "IH" in
  pose proof H as IH;
  rewrite length_app, <- !app_assoc in IH; simpl in IH;
  rewrite Nat.add_1_r in IH;
  exact IH.

(** The loop over [valid_data] writes what [signals_from] computes. *)
Lemma crossover_loop_signals (short_col : list (option Q)) :
  ∀ long_col pre j prev,
    length short_col = length long_col →
    crossover_loop (j, prev) (dropna_from (length pre) short_col long_col)
      (pre ++ replicate (length short_col) 0)
    = pre ++ signals_from (Some prev) short_col long_col.
Proof.
  induction short_col as [|s short_col IH];
    intros [|l long_col] pre j prev Hlen; try discriminate; [reflexivity|].
  injection Hlen as Hlen. simpl.
  destruct s as [a|], l as [b|]; simpl.
  - rewrite crossover_assign_app.
    specialize (IH long_col (pre ++ [crossover prev (a, b)]) (length pre)
                  (a, b) Hlen).
    rewrite length_app in IH. simpl in IH.
    replace (length pre + 1)%nat with (S (length pre)) in IH by lia.
    rewrite IH, <- app_assoc. reflexivity.
  - skipped_row (IH long_col (pre ++ [0]) j prev Hlen).
  - skipped_row (IH long_col (pre ++ [0]) j prev Hlen).
  - skipped_row (IH long_col (pre ++ [0]) j prev Hlen).
Qed.

Lemma crossover_loop_first (short_col : list (option Q)) :
  ∀ long_col pre,
    length short_col = length long_col →
    match dropna_from (length pre) short_col long_col with
    | [] => pre ++ replicate (length short_col) 0
    | first :: rest =>
        crossover_loop first rest (pre ++ replicate (length short_col) 0)
    end
    = pre ++ signals_from None short_col long_col.
Proof.
  induction short_col as [|s short_col IH];
    intros [|l long_col] pre Hlen; try discriminate; [reflexivity|].
  injection Hlen as Hlen. simpl.
  assert (Hskip :
    match dropna_from (S (length pre)) short_col long_col with
    | [] => pre ++ 0 :: replicate (length short_col) 0
    | first :: rest =>
        crossover_loop first rest (pre ++ 0 :: replicate (length short_col) 0)
    end = pre ++ 0 :: signals_from None short_col long_col).
  { skipped_row (IH long_col (pre ++ [0]) Hlen). }
  destruct s as [a|], l as [b|]; simpl; try exact Hskip.
  skipped_row (crossover_loop_signals short_col long_col (pre ++ [0])
                 (length pre) (a, b) Hlen).
Qed.

Lemma crossover_loop_short (valid : list (nat * (Q * Q))) (signal : list Z) :
  (length valid < 2)%nat →
  match valid with
  | [] => signal
  | first :: rest => crossover_loop first rest signal
  end = signal.
Proof.
  destruct valid as [|first [|second rest]]; simpl; intros H;
    [reflexivity|reflexivity|lia].
Qed.

(** The signal column of [generate_signals]. *)
Lemma generate_signals_signal_col (data : Frame) (sw lw : Z)
    (short_col long_col : list (option Q)) :
  ma data !! sw = Some short_col →
  ma data !! lw = Some long_col →
  length short_col = length (close data) →
  length long_col = length (close data) →
  ∃ df, generate_signals data sw lw = Ok df
        ∧ frame df = data
        ∧ signal_col df = signals_from None short_col long_col.
Proof.
  intros Hs Hl Hls Hll. unfold generate_signals. rewrite Hs, Hl. simpl.
  pose proof (crossover_loop_first short_col long_col [] ltac:(congruence))
    as Hloop.
  simpl in Hloop. rewrite Hls in Hloop. fold (dropna short_col long_col) in Hloop.
  destruct (Nat.ltb_spec (length (dropna short_col long_col)) 2) as [Hlt|Hge].
  - eexists. split; [reflexivity|]. simpl. split; [reflexivity|].
    rewrite <- Hloop. symmetry. apply crossover_loop_short. exact Hlt.
  - eexists. split; [reflexivity|]. simpl. split; [reflexivity|].
    exact Hloop.
Qed.

(** The whole strategy on non-negative windows: the signals are those of
    the two rolling means of the price column. *)
Lemma create_strategy_data_signals (data : Frame) (sw lw : Z) :
  0 <= sw → 0 <= lw →
  ∃ df,
    create_strategy_data data sw lw = Ok df
    ∧ close (frame df) = close data
    ∧ signal_col df =
        signals_from None (roll_mean (close data) (Z.to_nat sw))
                          (roll_mean (close data) (Z.to_nat lw)).
Proof.
  intros Hs Hl. unfold create_strategy_data.
  destruct (calculate_moving_averages_columns data sw lw Hs Hl)
    as (df_with_ma & -> & Hc & Hsc & Hlc). simpl.
  destruct (generate_signals_signal_col df_with_ma sw lw _ _ Hsc Hlc)
    as (df & Hdf & Hframe & Hsig).
  - unfold roll_mean. rewrite roll_mean_loop_length. congruence.
  - unfold roll_mean. rewrite roll_mean_loop_length. congruence.
  - exists df. rewrite Hframe. split; [exact Hdf|]. split; [exact Hc|exact Hsig].
Qed.

Lemma undefined_at_cons (s l : option Q) (sc lc : list (option Q)) (i : nat) :
  undefined_at (s :: sc) (l :: lc) (S i) ↔ undefined_at sc lc i.
Proof. reflexivity. Qed.

Lemma undefined_before_cons (s l : option Q) (sc lc : list (option Q))
    (i : nat) :
  undefined_at (s :: sc) (l :: lc) 0 →
  (∀ k, (k < i)%nat → undefined_at sc lc k) →
  ∀ k, (k < S i)%nat → undefined_at (s :: sc) (l :: lc) k.
Proof.
  intros H0 H [|k] Hk; [exact H0|].
  apply undefined_at_cons. apply H. lia.
Qed.

Lemma signal_cases_cons (s l : option Q) (prev : option (Q * Q))
    (sc lc : list (option Q)) (i : nat) (v : Z) :
  signal_cases
    (match s, l with Some a, Some b => Some (a, b) | _, _ => prev end)
    sc lc i v →
  signal_cases prev (s :: sc) (l :: lc) (S i) v.
Proof.
  intros [(j & p & cur & (Hj & Hd & Hu) & Hc & Hv)
         |[(p & cur & Hp & Hu & Hc & Hv)
         |[(Hv & Hu)|(Hv & Hp & Hu)]]].
  - left. exists (S j), p, cur. split; [|split; [exact Hc|exact Hv]].
    split; [lia|]. split; [exact Hd|].
    intros [|k] H1 H2; [lia|]. apply undefined_at_cons. apply Hu; lia.
  - destruct s as [a|], l as [b|].
    + left. injection Hp as <-. exists O, (a, b), cur.
      split; [|split; [exact Hc|exact Hv]].
      split; [lia|]. split; [split; reflexivity|].
      intros [|k] H1 H2; [lia|]. apply undefined_at_cons. apply Hu. lia.
    + right. left. exists p, cur. split; [exact Hp|].
      split; [|split; [exact Hc|exact Hv]].
      apply undefined_before_cons; [|exact Hu].
      intros q [_ Hq]. discriminate.
    + right. left. exists p, cur. split; [exact Hp|].
      split; [|split; [exact Hc|exact Hv]].
      apply undefined_before_cons; [|exact Hu].
      intros q [Hq _]. discriminate.
    + right. left. exists p, cur. split; [exact Hp|].
      split; [|split; [exact Hc|exact Hv]].
      apply undefined_before_cons; [|exact Hu].
      intros q [Hq _]. discriminate.
  - right. right. left. split; [exact Hv|]. exact Hu.
  - right. right. right. destruct s as [a|], l as [b|]; try discriminate;
      (split; [exact Hv|]; split; [exact Hp|];
       apply undefined_before_cons; [|exact Hu]).
    + intros q [_ Hq]. discriminate.
    + intros q [Hq _]. discriminate.
    + intros q [Hq _]. discriminate.
Qed.

Lemma signals_from_cases (sc : list (option Q)) :
  ∀ lc prev i,
    length sc = length lc → (i < length sc)%nat →
    ∃ v, signals_from prev sc lc !! i = Some v ∧ signal_cases prev sc lc i v.
Proof.
  induction sc as [|s sc IH]; intros [|l lc] prev i Hlen Hi;
    try discriminate; simpl in Hi; [lia|].
  injection Hlen as Hlen. destruct i as [|i].
  - destruct s as [a|], l as [b|]; simpl.
    + destruct prev as [p|]; eexists; (split; [reflexivity|]).
      * right. left. exists p, (a, b). split; [reflexivity|].
        split; [intros k Hk; lia|]. split; [split; reflexivity|reflexivity].
      * right. right. right. split; [reflexivity|]. split; [reflexivity|].
        intros k Hk. lia.
    + eexists. split; [reflexivity|]. right. right. left.
      split; [reflexivity|]. intros q [_ Hq]. discriminate.
    + eexists. split; [reflexivity|]. right. right. left.
      split; [reflexivity|]. intros q [Hq _]. discriminate.
    + eexists. split; [reflexivity|]. right. right. left.
      split; [reflexivity|]. intros q [Hq _]. discriminate.
  - destruct (IH lc (match s, l with
                     | Some a, Some b => Some (a, b)
                     | _, _ => prev
                     end) i Hlen ltac:(lia)) as (v & Hv & Hcases).
    exists v. split; [|apply signal_cases_cons; exact Hcases].
    destruct s as [a|], l as [b|]; simpl; exact Hv.
Qed.

Lemma signals_from_length (sc : list (option Q)) :
  ∀ lc prev, length sc = length lc →
             length (signals_from prev sc lc) = length sc.
Proof.
  induction sc as [|s sc IH]; intros [|l lc] prev Hlen; try discriminate;
    [reflexivity|].
  injection Hlen as Hlen. simpl.
  destruct s as [a|], l as [b|]; simpl; rewrite IH by exact Hlen; reflexivity.
Qed.

Lemma defined_at_unique (sc lc : list (option Q)) (i : nat) (p q : Q * Q) :
  defined_at sc lc i p → defined_at sc lc i q → p = q.
Proof.
  destruct p as [p1 p2], q as [q1 q2]. unfold defined_at. simpl.
  intros [H1 H2] [H3 H4]. congruence.
Qed.

Lemma previous_defined_unique (sc lc : list (option Q)) (i j j' : nat)
    (p p' : Q * Q) :
  previous_defined sc lc i j p → previous_defined sc lc i j' p' → p = p'.
Proof.
  intros (Hj & Hd & Hu) (Hj' & Hd' & Hu').
  destruct (Nat.lt_trichotomy j j') as [Hlt|[->|Hgt]].
  - exfalso. exact (Hu j' Hlt Hj' p' Hd').
  - exact (defined_at_unique _ _ _ _ _ Hd Hd').
  - exfalso. exact (Hu' j Hgt Hj p Hd).
Qed.

Lemma crossover_buy (p c : Q * Q) :
  crossover p c = 1 ↔ (p.1 <= p.2)%Q ∧ (c.2 < c.1)%Q.
Proof.
  unfold crossover.
  destruct (Qle_bool p.1 p.2 && Qltb c.2 c.1) eqn:E1.
  - apply andb_true_iff in E1. rewrite Qle_bool_iff, Qltb_lt in E1. tauto.
  - split.
    + destruct (Qle_bool p.2 p.1 && Qltb c.1 c.2); discriminate.
    + intros [H1 H2]. apply Qle_bool_iff in H1. apply Qltb_lt in H2.
      rewrite H1, H2 in E1. discriminate.
Qed.

Lemma crossover_sell (p c : Q * Q) :
  crossover p c = -1 ↔ (p.2 <= p.1)%Q ∧ (c.1 < c.2)%Q.
Proof.
  unfold crossover.
  destruct (Qle_bool p.1 p.2 && Qltb c.2 c.1) eqn:E1.
  - split; [discriminate|]. intros [_ H].
    apply andb_true_iff in E1. destruct E1 as [_ E1].
    apply Qltb_lt in E1. lra.
  - destruct (Qle_bool p.2 p.1 && Qltb c.1 c.2) eqn:E2.
    + apply andb_true_iff in E2. rewrite Qle_bool_iff, Qltb_lt in E2. tauto.
    + split; [discriminate|]. intros [H1 H2].
      apply Qle_bool_iff in H1. apply Qltb_lt in H2.
      rewrite H1, H2 in E2. discriminate.
Qed.

Lemma crossover_values (p c : Q * Q) :
  crossover p c = 1 ∨ crossover p c = -1 ∨ crossover p c = 0.
Proof.
  unfold crossover.
  destruct (Qle_bool p.1 p.2 && Qltb c.2 c.1); [tauto|].
  destruct (Qle_bool p.2 p.1 && Qltb c.1 c.2); tauto.
Qed.

Lemma signal_cases_buy (sc lc : list (option Q)) (i : nat) (v : Z) :
  signal_cases None sc lc i v → (v = 1 ↔ golden_cross sc lc i).
Proof.
  intros [(j & p & cur & Hprev & Hdef & Hv)
         |[(p & cur & Hp & _)|[(Hv & Hu)|(Hv & _ & Hu)]]].
  - split.
    + intros H1. rewrite Hv in H1. apply crossover_buy in H1.
      exists j, p, cur. tauto.
    + intros (j' & p' & cur' & Hprev' & Hdef' & Hineq).
      rewrite (previous_defined_unique _ _ _ _ _ _ _ Hprev Hprev'),
              (defined_at_unique _ _ _ _ _ Hdef Hdef'), <- crossover_buy in *.
      rewrite Hv. exact Hineq.
  - discriminate.
  - split; [lia|]. intros (_ & _ & cur & _ & Hdef & _).
    exfalso. exact (Hu cur Hdef).
  - split; [lia|]. intros (j & p & _ & (Hj & Hdef & _) & _).
    exfalso. exact (Hu j Hj p Hdef).
Qed.

Lemma signal_cases_sell (sc lc : list (option Q)) (i : nat) (v : Z) :
  signal_cases None sc lc i v → (v = -1 ↔ death_cross sc lc i).
Proof.
  intros [(j & p & cur & Hprev & Hdef & Hv)
         |[(p & cur & Hp & _)|[(Hv & Hu)|(Hv & _ & Hu)]]].
  - split.
    + intros H1. rewrite Hv in H1. apply crossover_sell in H1.
      exists j, p, cur. tauto.
    + intros (j' & p' & cur' & Hprev' & Hdef' & Hineq).
      rewrite (previous_defined_unique _ _ _ _ _ _ _ Hprev Hprev'),
              (defined_at_unique _ _ _ _ _ Hdef Hdef'), <- crossover_sell in *.
      rewrite Hv. exact Hineq.
  - discriminate.
  - split; [lia|]. intros (_ & _ & cur & _ & Hdef & _).
    exfalso. exact (Hu cur Hdef).
  - split; [lia|]. intros (j & p & _ & (Hj & Hdef & _) & _).
    exfalso. exact (Hu j Hj p Hdef).
Qed.

Lemma signal_cases_values (sc lc : list (option Q)) (i : nat) (v : Z) :
  signal_cases None sc lc i v → v = 1 ∨ v = -1 ∨ v = 0.
Proof.
  intros [(j & p & cur & _ & _ & ->)
         |[(p & cur & Hp & _)|[(-> & _)|(-> & _)]]];
    [apply crossover_values|discriminate|tauto|tauto].
Qed.

(** C1: on every row [i], the signal is Buy (1) exactly when both averages
    exist on row [i] and on its previous defined period, with
    [prev.short <= prev.long] and [curr.short > curr.long]; Sell (-1)
    exactly when they exist on both with [prev.short >= prev.long] and
    [curr.short < curr.long]; and Hold (0) in every other case: on every
    row without both averages, on the first row that has them, and
    whenever [curr.short] equals [curr.long]. *)
Theorem crossover_signal_exact (data : Frame) (sw lw : Z)
    (short_col long_col : list (option Q)) :
  ma data !! sw = Some short_col →
  ma data !! lw = Some long_col →
  length short_col = length (close data) →
  length long_col = length (close data) →
  ∃ df,
    generate_signals data sw lw = Ok df
    ∧ length (signal_col df) = length (close data)
    ∧ ∀ i, (i < length (close data))%nat →
        ∃ v, signal_col df !! i = Some v
          ∧ (v = buy_signal ↔ golden_cross short_col long_col i)
          ∧ (v = sell_signal ↔ death_cross short_col long_col i)
          ∧ (v = hold_signal ↔
               ¬ golden_cross short_col long_col i
               ∧ ¬ death_cross short_col long_col i)
          ∧ (undefined_at short_col long_col i → v = hold_signal)
          ∧ ((∀ k, (k < i)%nat → undefined_at short_col long_col k) →
             v = hold_signal)
          ∧ (∀ cur, defined_at short_col long_col i cur →
                    (cur.1 == cur.2)%Q → v = hold_signal).
Proof.
  intros Hs Hl Hls Hll.
  destruct (generate_signals_signal_col data sw lw _ _ Hs Hl Hls Hll)
    as (df & Hdf & _ & Hsig).
  exists df. split; [exact Hdf|]. rewrite Hsig.
  split; [rewrite signals_from_length; congruence|].
  intros i Hi.
  destruct (signals_from_cases short_col long_col None i
              ltac:(congruence) ltac:(lia)) as (v & Hv & Hcases).
  pose proof (signal_cases_buy _ _ _ _ Hcases) as Hbuy.
  pose proof (signal_cases_sell _ _ _ _ Hcases) as Hsell.
  pose proof (signal_cases_values _ _ _ _ Hcases) as Hvals.
  unfold buy_signal, sell_signal, hold_signal.
  assert (Hhold : v = 0 ↔ ¬ golden_cross short_col long_col i
                          ∧ ¬ death_cross short_col long_col i).
  { split.
    - intros ->. split; intros H; [apply Hbuy in H|apply Hsell in H];
        discriminate.
    - intros [Hg Hd]. destruct Hvals as [H|[H|H]]; [|
        |exact H].
      + exfalso. apply Hg, Hbuy, H.
      + exfalso. apply Hd, Hsell, H. }
  exists v. split; [exact Hv|]. split; [exact Hbuy|]. split; [exact Hsell|].
  split; [exact Hhold|].
  split; [|split].
  - intros Hu. apply Hhold.
    split; intros (_ & _ & cur & _ & Hdef & _); exact (Hu cur Hdef).
  - intros Hu. apply Hhold.
    split; intros (j & p & _ & (Hj & Hdef & _) & _); exact (Hu j Hj p Hdef).
  - intros cur Hdef Heq. apply Hhold.
    split; intros (_ & _ & cur' & _ & Hdef' & _ & Hlt);
      rewrite (defined_at_unique _ _ _ _ _ Hdef' Hdef) in Hlt; lra.
Qed.

Lemma crossover_signal_exact_witness :
  ∃ df,
    generate_signals crossing_frame 1 2 = Ok df
    ∧ signal_col df = [0; 0; 1]
    ∧ golden_cross [Some 3; Some 1; Some 4]%Q [None; Some 2; Some (5 # 2)]%Q 2.
Proof.
  destruct (crossover_signal_exact crossing_frame 1 2
              [Some 3; Some 1; Some 4]%Q [None; Some 2; Some (5 # 2)]%Q
              eq_refl eq_refl eq_refl eq_refl)
    as (df & Hdf & _ & Hrows).
  exists df. split; [exact Hdf|].
  destruct (Hrows 2%nat ltac:(simpl; lia)) as (v & Hv & Hbuy & _).
  assert (Hcol : signal_col df = [0; 0; 1]).
  { assert (Hrun : generate_signals crossing_frame 1 2
                   = Ok (mkSignalFrame crossing_frame [0; 0; 1] [0; 0; 1]))
      by (vm_compute; reflexivity).
    rewrite Hrun in Hdf. injection Hdf as <-. reflexivity. }
  split; [exact Hcol|].
  apply Hbuy. rewrite Hcol in Hv. injection Hv as <-. reflexivity.
Defined.

(** ** The analyzer's divisions *)

(** A division yields [NonFinite] exactly on a zero divisor. *)
Lemma fdiv_nonfinite (a b : Q) : fdiv a b = NonFinite ↔ (b == 0)%Q.
Proof.
  unfold fdiv. destruct (Qeq_bool b 0) eqn:E.
  - apply Qeq_bool_iff in E. tauto.
  - apply Qeq_bool_neq in E. split; [discriminate|contradiction].
Qed.

Lemma fdiv_finite (a b : Q) : ¬ (b == 0)%Q → finite (fdiv a b).
Proof.
  intros H. destruct (fdiv a b) eqn:E; [exact I|].
  apply fdiv_nonfinite in E. contradiction.
Qed.

Lemma sharpe_ratio_of_guarded (total_return volatility : num) :
  finite total_return →
  finite (sharpe_ratio_of total_return volatility)
  ∧ (npos volatility = false →
     sharpe_ratio_of total_return volatility = Fin 0).
Proof.
  intros Htr. unfold sharpe_ratio_of.
  destruct (npos volatility) eqn:Hv; [|split; [exact I|reflexivity]].
  split; [|discriminate].
  destruct total_return as [x|]; [|destruct Htr].
  destruct volatility as [v|]; [|discriminate].
  simpl in *. apply Qltb_lt in Hv. apply fdiv_finite. lra.
Qed.

Lemma win_rate_guarded (log : list Trade) (pairs : Z) (rate : num) :
  win_rate log = Ok (pairs, rate) →
  pairs = Z.of_nat (length log) / 2
  ∧ finite rate
  ∧ (pairs <= 0 → rate = Fin 0).
Proof.
  unfold win_rate. destruct log as [|t log].
  - intros H. injection H as <- <-. split; [reflexivity|].
    split; [exact I|reflexivity].
  - destruct (profitable_trades (t :: log)) as [n|]; [|discriminate].
    simpl. intros H. injection H as <- <-.
    split; [reflexivity|].
    destruct (Z.ltb_spec 0 (Z.of_nat (S (length log)) / 2)) as [Hp|Hp].
    + split; [|lia]. apply fdiv_finite.
      pose proof (inject_Z_pos _ Hp). lra.
    + split; [exact I|reflexivity].
Qed.

Lemma pct_change_from_lookup (vs : list Q) :
  ∀ first i prev v,
    (first :: vs) !! i = Some prev → vs !! i = Some v →
    pct_change_from first vs !! i
    = Some (Some (nlift (fun x => x - 1)%Q (fdiv v prev))).
Proof.
  induction vs as [|w vs IH]; intros first i prev v Hp Hv; [discriminate|].
  destruct i as [|i]; simpl in *.
  - injection Hp as ->. injection Hv as ->. reflexivity.
  - apply IH; assumption.
Qed.

(** Each daily return divides by the value of the row before. *)
Lemma pct_change_lookup (vs : list Q) (i : nat) (prev v : Q) :
  vs !! i = Some prev → vs !! S i = Some v →
  pct_change vs !! S i = Some (Some (nlift (fun x => x - 1)%Q (fdiv v prev))).
Proof.
  destruct vs as [|first vs]; [discriminate|]. simpl. intros Hp Hv.
  apply pct_change_from_lookup; assumption.
Qed.

(** Each drawdown divides by the running peak of its row. *)
Lemma drawdown_lookup (vs : list Q) (i : nat) (v peak : Q) :
  vs !! i = Some v → expanding_max vs !! i = Some peak →
  drawdown vs !! i = Some (drawdown_entry v peak).
Proof.
  intros Hv Hp. unfold drawdown. rewrite lookup_zip_with, Hv, Hp.
  reflexivity.
Qed.

Lemma drawdown_entry_zero_peak (v peak : Q) :
  (peak == 0)%Q →
  drawdown_entry v peak = None ∨ drawdown_entry v peak = Some NonFinite.
Proof.
  intros Hp. unfold drawdown_entry.
  destruct (Qeq_bool peak 0 && Qeq_bool (v - peak) 0); [left; reflexivity|].
  right. f_equal. apply fdiv_nonfinite. exact Hp.
Qed.

(** In an alternating, well-keyed log every pair the win-rate loop reads
    has its ['Cost'] and ['Proceeds']. *)
Lemma profitable_trades_ok (n : nat) :
  ∀ log, (length log <= n)%nat → alternating log → Forall well_keyed log →
         is_ok (profitable_trades log).
Proof.
  induction n as [|n IH]; intros log Hn Halt Hkeys.
  - destruct log; [exact I|simpl in Hn; lia].
  - destruct log as [|b [|s rest]]; [exact I|exact I|].
    inversion Hkeys as [|? ? Hb Hkeys']; subst.
    inversion Hkeys' as [|? ? Hs Hrest]; subst.
    pose proof (Halt 0%nat b eq_refl) as Hba.
    pose proof (Halt 1%nat s eq_refl) as Hsa.
    simpl in Hba, Hsa. unfold well_keyed in Hb, Hs.
    rewrite Hba in Hb. rewrite Hsa in Hs.
    destruct Hb as [c Hc], Hs as [p Hp].
    cbn [profitable_trades]. rewrite Hp, Hc. simpl.
    assert (Hok : is_ok (profitable_trades rest)).
    { apply IH; [simpl in Hn; lia| |exact Hrest].
      intros i t Hi. exact (Halt (S (S i)) t Hi). }
    destruct (profitable_trades rest) as [k|]; [exact I|destruct Hok].
Qed.

(** C9, as the code has it: two of the analyzer's divisions are guarded by
    an explicit check with the fallback 0, the risk-adjusted ratio (when
    volatility is not above 0) and the win rate (when there is no trade
    pair).  The divisions by the initial capital, the first price, the
    previous portfolio value and the running peak are not guarded: on a
    zero divisor each yields an infinity or [nan], and no fallback value
    is substituted. *)
Theorem analyzer_divisions (annualized_std : list (option num) → num) :
  (∀ total_return volatility,
     finite total_return →
     finite (sharpe_ratio_of total_return volatility)
     ∧ (npos volatility = false →
        sharpe_ratio_of total_return volatility = Fin 0))
  ∧ (∀ log pairs rate,
       win_rate log = Ok (pairs, rate) →
       pairs = Z.of_nat (length log) / 2
       ∧ finite rate
       ∧ (pairs <= 0 → rate = Fin 0))
  ∧ (∀ capital log values data m,
       calculate_performance_metrics annualized_std capital log values data
         = Ok (Some m) →
       let vs := s_Portfolio_Value <$> values in
       ((capital == 0)%Q → total_return_pct m = NonFinite)
       ∧ (∀ first_row,
            head data = Some first_row → (Close first_row == 0)%Q →
            buy_hold_return_pct m = NonFinite)
       ∧ (∀ i prev v,
            vs !! i = Some prev → vs !! S i = Some v → (prev == 0)%Q →
            Daily_Return m !! S i = Some (Some NonFinite))
       ∧ (∀ i v peak,
            vs !! i = Some v → Peak m !! i = Some peak → (peak == 0)%Q →
            Drawdown m !! i = Some None
            ∨ Drawdown m !! i = Some (Some NonFinite))).
Proof.
  split; [|split].
  - intros total_return volatility. apply sharpe_ratio_of_guarded.
  - intros log pairs rate. apply win_rate_guarded.
  - intros capital log values data m Hm vs.
    unfold calculate_performance_metrics in Hm.
    destruct (last values) as [final|]; [|discriminate].
    destruct (head data) as [first_row|] eqn:Hhead; [|discriminate].
    destruct (last data) as [last_row|]; [|discriminate].
    simpl in Hm.
    destruct (win_rate log) as [[pairs rate]|]; [|discriminate].
    simpl in Hm. injection Hm as <-. simpl. fold vs.
    split; [|split; [|split]].
    + intros Hc. apply (fdiv_nonfinite (s_Portfolio_Value final - capital))
        in Hc. rewrite Hc. reflexivity.
    + intros row Hrow Hz. injection Hrow as <-.
      apply (fdiv_nonfinite (Close last_row - Close first_row)) in Hz.
      rewrite Hz. reflexivity.
    + intros i prev v Hp Hv Hz.
      rewrite (pct_change_lookup vs i prev v Hp Hv).
      apply (fdiv_nonfinite v) in Hz. rewrite Hz. reflexivity.
    + intros i v peak Hv Hp Hz.
      rewrite (drawdown_lookup vs i v peak Hv Hp).
      destruct (drawdown_entry_zero_peak v peak Hz) as [->| ->];
        [left|right]; reflexivity.
Qed.

Lemma analyzer_divisions_witness :
  sharpe_ratio_of (Fin (1 # 10)) (Fin 0) = Fin 0
  ∧ ∃ m,
      calculate_performance_metrics (fun _ => NonFinite) 0 []
        [mkSnapshot 0 0 0 100 0] [mkRow 0 100 0 0] = Ok (Some m)
      ∧ total_return_pct m = NonFinite
      ∧ Drawdown m !! 0%nat = Some None.
Proof.
  destruct (analyzer_divisions (fun _ => NonFinite)) as (Hs & _ & Hun).
  split.
  - exact (proj2 (Hs (Fin (1 # 10)) (Fin 0) I) eq_refl).
  - assert (Hm : ∃ m,
               calculate_performance_metrics (fun _ => NonFinite) 0 []
                 [mkSnapshot 0 0 0 100 0] [mkRow 0 100 0 0] = Ok (Some m))
      by (eexists; cbv; reflexivity).
    destruct Hm as [m Hm]. exists m. split; [exact Hm|].
    destruct (Hun 0%Q [] [mkSnapshot 0 0 0 100 0] [mkRow 0 100 0 0] m Hm)
      as (Htr & _ & _ & Hdd).
    split; [apply Htr; reflexivity|].
    assert (Hpeak : Peak m !! 0%nat = Some 0%Q).
    { cbv in Hm. injection Hm as <-. reflexivity. }
    destruct (Hdd 0%nat 0%Q 0%Q eq_refl Hpeak ltac:(reflexivity))
      as [H|H]; [exact H|].
    cbv in Hm. injection Hm as <-. discriminate H.
Defined.

(** C9 as the specification states it fails: the division by the initial
    capital has no guard, and neither has the division by the first price.
    With capital 0 the total return and the drawdown are divisions by
    zero; with a first price of 0 the buy-and-hold return is one. *)
Lemma unguarded_divisions_by_zero :
  (∃ out m,
     run_backtest (fun _ => NonFinite) 0 (1 # 1000) [mkRow 0 100 0 0] = Ok out
     ∧ results out = Some m
     ∧ total_return_pct m = NonFinite
     ∧ Drawdown m = [None])
  ∧ (∃ out m,
       run_backtest (fun _ => NonFinite) 10000 (1 # 1000) [mkRow 0 0 0 0]
         = Ok out
       ∧ results out = Some m
       ∧ buy_hold_return_pct m = NonFinite).
Proof.
  split.
  - do 2 eexists. split; [cbv; reflexivity|].
    split; [reflexivity|]. split; reflexivity.
  - do 2 eexists. split; [cbv; reflexivity|].
    split; [reflexivity|reflexivity].
Qed.

(** * Further properties of the simulator *)

(** The three things [execute_trade] can return. *)
Lemma execute_trade_cases (r : Q) (st st' : Portfolio) (row : Row) :
  execute_trade r st row = Ok st' →
  st' = st
  ∨ (Signal row = buy_signal ∧ shares st = 0
     ∧ ∃ n, 0 < n
         ∧ int_of_quotient (cash st - cash st * r) (Close row) = Ok n
         ∧ st' = mkPortfolio
                   (cash st - (inject_Z n * Close row + cash st * r))%Q
                   (shares st + n)
                   (trade_log st ++
                      [mkTrade (Date row) BUY n (Close row)
                         (Some (inject_Z n * Close row)%Q) None
                         (cash st * r)%Q
                         (cash st - (inject_Z n * Close row + cash st * r))%Q
                         (shares st + n)])
                   (portfolio_values st))
  ∨ (Signal row = sell_signal ∧ 0 < shares st
     ∧ st' = mkPortfolio
               (cash st + (inject_Z (shares st) * Close row
                           - inject_Z (shares st) * Close row * r))%Q
               0
               (trade_log st ++
                  [mkTrade (Date row) SELL (shares st) (Close row) None
                     (Some (inject_Z (shares st) * Close row)%Q)
                     (inject_Z (shares st) * Close row * r)%Q
                     (cash st + (inject_Z (shares st) * Close row
                                 - inject_Z (shares st) * Close row * r))%Q
                     0])
               (portfolio_values st)).
Proof.
  unfold execute_trade. intros H.
  destruct (Z.eqb_spec (Signal row) 1) as [Hb|Hb]; simpl in H.
  - destruct (Z.eqb_spec (shares st) 0) as [Hz|Hz]; simpl in H.
    + destruct (int_of_quotient _ _) as [n|] eqn:Hq; [|discriminate].
      simpl in H. destruct (Z.ltb_spec 0 n) as [Hn|Hn]; injection H as <-.
      * right. left. split; [exact Hb|]. split; [exact Hz|].
        exists n. split; [exact Hn|]. split; reflexivity.
      * left. reflexivity.
    + rewrite Hb in H. simpl in H. injection H as <-. left. reflexivity.
  - destruct (Z.eqb_spec (Signal row) (-1)) as [Hs|Hs]; simpl in H.
    + destruct (Z.ltb_spec 0 (shares st)) as [Hp|Hp]; injection H as <-.
      * right. right. split; [exact Hs|]. split; [exact Hp|reflexivity].
      * left. reflexivity.
    + injection H as <-. left. reflexivity.
Qed.

Lemma step_cases (r : Q) (st st' : Portfolio) (row : Row) :
  step r st row = Ok st' →
  ∃ st1, execute_trade r st row = Ok st1 ∧ st' = record_value st1 row.
Proof.
  unfold step. intros H.
  destruct (execute_trade r st row) as [st1|]; [|discriminate].
  simpl in H. injection H as <-. exists st1. split; reflexivity.
Qed.

(** A property every period preserves holds at the end of the loop. *)
Lemma simulate_invariant (P : Portfolio → Prop) (r : Q) (data : list Row) :
  (∀ st row st', row ∈ data → P st → step r st row = Ok st' → P st') →
  ∀ st st', P st → simulate r st data = Ok st' → P st'.
Proof.
  induction data as [|row data IH]; intros Hstep st st' HP H; simpl in H.
  - injection H as <-. exact HP.
  - destruct (step r st row) as [st1|] eqn:E; [|discriminate]. simpl in H.
    apply (IH (fun st0 row0 st0' Hin => Hstep st0 row0 st0'
                 (list_elem_of_further _ _ _ Hin)) st1 st');
      [|exact H].
    apply (Hstep st row st1); [apply list_elem_of_here|exact HP|exact E].
Qed.

Lemma execute_trade_portfolio_values (r : Q) (st st' : Portfolio) (row : Row) :
  execute_trade r st row = Ok st' → portfolio_values st' = portfolio_values st.
Proof.
  intros H.
  destruct (execute_trade_cases _ _ _ _ H)
    as [->|[(_ & _ & n & _ & _ & ->)|(_ & _ & ->)]]; reflexivity.
Qed.

Lemma simulate_snapshots (r : Q) (data : list Row) :
  ∀ st st', simulate r st data = Ok st' →
  ∃ new, portfolio_values st' = portfolio_values st ++ new
         ∧ Forall2 snapshot_of_row new data.
Proof.
  induction data as [|row data IH]; intros st st' H; simpl in H.
  - injection H as <-. exists []. rewrite app_nil_r.
    split; [reflexivity|constructor].
  - destruct (step r st row) as [st1|] eqn:E; [|discriminate]. simpl in H.
    destruct (step_cases _ _ _ _ E) as (st0 & Hex & ->).
    destruct (IH _ _ H) as (new & Hnew & Hall).
    eexists (_ :: new). split.
    + rewrite Hnew. unfold record_value. simpl.
      rewrite (execute_trade_portfolio_values _ _ _ _ Hex), <- app_assoc.
      reflexivity.
    + constructor; [|exact Hall]. repeat split.
Qed.

Lemma snapshots_follow_rows_aux (capital r : Q) (data : list Row)
    (st : Portfolio) :
  simulate r (initial_portfolio capital) data = Ok st →
  Forall2 snapshot_of_row (portfolio_values st) data.
Proof.
  intros H. destruct (simulate_snapshots r data _ _ H) as (new & Hnew & Hall).
  simpl in Hnew. rewrite Hnew. exact Hall.
Qed.

(** X1: a completed run leaves one snapshot per row, in the order of the
    rows; each carries its row's label and price, and its value is its cash
    plus its shares at that price. *)
Theorem snapshots_follow_rows (capital r : Q) (data : list Row)
    (st : Portfolio) :
  simulate r (initial_portfolio capital) data = Ok st →
  Forall2 snapshot_of_row (portfolio_values st) data.
Proof.
  apply snapshots_follow_rows_aux.
Qed.

Lemma snapshots_follow_rows_witness :
  ∃ st, simulate (1 # 1000) (initial_portfolio 10000) flat_scenario = Ok st
        ∧ Forall2 snapshot_of_row (portfolio_values st) flat_scenario.
Proof.
  eexists. split; [cbv; reflexivity|].
  apply (snapshots_follow_rows 10000 (1 # 1000)). cbv. reflexivity.
Defined.

Lemma sells_match_snoc (log : list Trade) (t : Trade) :
  sells_match log →
  (∀ b, last log = Some b → t_Action t = SELL →
        t_Shares t = t_Shares_After b) →
  sells_match (log ++ [t]).
Proof.
  intros Hlog Ht i b s Hb Hs Hsell.
  destruct (Nat.lt_trichotomy (S i) (length log)) as [Hlt|[Heq|Hgt]].
  - rewrite lookup_app_l in Hb by lia. rewrite lookup_app_l in Hs by lia.
    exact (Hlog i b s Hb Hs Hsell).
  - rewrite lookup_app_l in Hb by lia.
    rewrite lookup_app_r in Hs by lia.
    replace (S i - length log)%nat with O in Hs by lia.
    injection Hs as <-. apply Ht; [|exact Hsell].
    rewrite last_lookup. replace (pred (length log)) with i by lia. exact Hb.
  - rewrite lookup_app_r in Hs by lia.
    destruct (S i - length log)%nat as [|k] eqn:Hk; [lia|discriminate].
Qed.

Lemma execute_trade_trades_ok (r capital : Q) (data : list Row)
    (st st' : Portfolio) (row : Row) :
  row ∈ data → trades_ok r capital data st →
  execute_trade r st row = Ok st' → trades_ok r capital data st'.
Proof.
  intros Hin (Hsync & Hcons & Hsig & Hmatch) H.
  destruct (execute_trade_cases _ _ _ _ H)
    as [->|[(Hb & Hz & n & Hn & _ & ->)|(Hs & Hp & ->)]].
  - repeat split; assumption.
  - unfold trades_ok, after_last_trade. simpl. rewrite last_snoc.
    split; [reflexivity|]. split; [|split].
    + apply Forall_app. split; [exact Hcons|]. constructor; [|constructor].
      split; [exact Hn|]. simpl. rewrite Hz. repeat split.
    + apply Forall_app. split; [exact Hsig|]. constructor; [|constructor].
      exists row. repeat split; [exact Hin|exact Hb].
    + apply sells_match_snoc; [exact Hmatch|]. intros b _ Hsell.
      discriminate Hsell.
  - unfold trades_ok, after_last_trade. simpl. rewrite last_snoc.
    split; [reflexivity|]. split; [|split].
    + apply Forall_app. split; [exact Hcons|]. constructor; [|constructor].
      split; [exact Hp|]. simpl. repeat split.
    + apply Forall_app. split; [exact Hsig|]. constructor; [|constructor].
      exists row. repeat split; [exact Hin|exact Hs].
    + apply sells_match_snoc; [exact Hmatch|]. intros b Hlast _. simpl.
      unfold after_last_trade in Hsync. rewrite Hlast in Hsync.
      injection Hsync as _ Hsh. exact Hsh.
Qed.

Lemma simulate_trades_ok (r capital : Q) (data : list Row) (st : Portfolio) :
  simulate r (initial_portfolio capital) data = Ok st →
  trades_ok r capital data st.
Proof.
  apply (simulate_invariant (trades_ok r capital data)).
  - intros st0 row st' Hin HP Hstep.
    destruct (step_cases _ _ _ _ Hstep) as (st1 & Hex & ->).
    exact (execute_trade_trades_ok _ _ _ _ _ _ Hin HP Hex).
  - unfold trades_ok, after_last_trade, sells_match. simpl.
    split; [reflexivity|]. split; [constructor|]. split; [constructor|].
    intros i b s Hb. rewrite lookup_nil in Hb. discriminate.
Qed.

Lemma simulate_snapshot_current (r : Q) (data : list Row) :
  ∀ st st', snapshot_current st → simulate r st data = Ok st' →
            snapshot_current st'.
Proof.
  apply simulate_invariant. intros st row st' _ _ Hstep.
  destruct (step_cases _ _ _ _ Hstep) as (st1 & _ & ->).
  unfold snapshot_current, record_value. simpl. rewrite last_snoc.
  split; reflexivity.
Qed.

(** X2: after a completed run over at least one row, the last snapshot
    holds the cash and the shares that the last logged trade left, or the
    initial capital and no shares when nothing was traded. *)
Theorem last_snapshot_after_last_trade (capital r : Q) (data : list Row)
    (st : Portfolio) :
  data ≠ [] →
  simulate r (initial_portfolio capital) data = Ok st →
  ∃ s, last (portfolio_values st) = Some s
       ∧ (s_Cash s, s_Shares s) = after_last_trade capital (trade_log st).
Proof.
  intros Hne H.
  pose proof (simulate_snapshots_length r data _ _ H) as Hlen. simpl in Hlen.
  assert (Hinit : snapshot_current (initial_portfolio capital)) by exact I.
  pose proof (simulate_snapshot_current r data _ _ Hinit H) as Hcur.
  destruct (simulate_trades_ok r capital data st H) as (Hsync & _).
  unfold snapshot_current in Hcur.
  destruct (last (portfolio_values st)) as [s|] eqn:E.
  - exists s. split; [reflexivity|]. destruct Hcur as [-> ->]. exact Hsync.
  - apply last_None in E. rewrite E in Hlen. destruct data; [contradiction|].
    discriminate.
Qed.

Lemma last_snapshot_after_last_trade_witness :
  ∃ st s,
    simulate (1 # 1000) (initial_portfolio 10000) flat_scenario = Ok st
    ∧ last (portfolio_values st) = Some s
    ∧ (s_Cash s, s_Shares s) = after_last_trade 10000 (trade_log st).
Proof.
  eexists.
  assert (Hrun : simulate (1 # 1000) (initial_portfolio 10000) flat_scenario
                 = Ok ?[st]) by (cbv; reflexivity).
  destruct (last_snapshot_after_last_trade 10000 (1 # 1000) flat_scenario _
              ltac:(discriminate) Hrun) as (s & Hs & Hafter).
  exists s. split; [exact Hrun|]. split; [exact Hs|exact Hafter].
Defined.

(** X3: in a completed run every logged trade was made on a row of the
    data that carries its signal (1 for a BUY, -1 for a SELL), at that
    row's price, and its fields agree: a positive share count, cost or
    proceeds equal to shares times price, the SELL commission equal to
    proceeds times the rate, and the shares held afterwards. *)
Theorem trade_records_consistent (capital r : Q) (data : list Row)
    (st : Portfolio) :
  simulate r (initial_portfolio capital) data = Ok st →
  Forall (trade_consistent r) (trade_log st)
  ∧ Forall (trade_on_signal data) (trade_log st).
Proof.
  intros H. destruct (simulate_trades_ok r capital data st H)
    as (_ & Hcons & Hsig & _).
  split; assumption.
Qed.

Lemma trade_records_consistent_witness :
  ∃ st,
    simulate (1 # 1000) (initial_portfolio 10000) flat_scenario = Ok st
    ∧ Forall (trade_consistent (1 # 1000)) (trade_log st)
    ∧ Forall (trade_on_signal flat_scenario) (trade_log st).
Proof.
  eexists. split; [cbv; reflexivity|].
  apply (trade_records_consistent 10000). cbv. reflexivity.
Defined.

(** X4: in a completed run the trade before a SELL is a BUY, and the SELL
    sells exactly the number of shares that BUY bought. *)
Theorem sell_closes_previous_buy (capital r : Q) (data : list Row)
    (st : Portfolio) (i : nat) (b s : Trade) :
  simulate r (initial_portfolio capital) data = Ok st →
  trade_log st !! i = Some b →
  trade_log st !! S i = Some s →
  t_Action s = SELL →
  t_Action b = BUY ∧ t_Shares s = t_Shares b.
Proof.
  intros H Hb Hs Hsell.
  destruct (simulate_trades_ok r capital data st H)
    as (_ & Hcons & _ & Hmatch).
  destruct (simulate_position_ok r data _ _ H
              (initial_portfolio_position_ok capital)) as (Halt & _).
  pose proof (alternating_no_repeat _ Halt i b s Hb Hs) as Hne.
  assert (Hbuy : t_Action b = BUY).
  { destruct (t_Action b); [reflexivity|]. rewrite Hsell in Hne.
    contradiction. }
  split; [exact Hbuy|].
  rewrite (Hmatch i b s Hb Hs Hsell).
  rewrite Forall_lookup in Hcons. destruct (Hcons i b Hb) as (_ & Hfields).
  rewrite Hbuy in Hfields. destruct Hfields as (_ & _ & Hafter). exact Hafter.
Qed.

Lemma sell_closes_previous_buy_witness :
  ∃ st b s,
    simulate (1 # 1000) (initial_portfolio 10000) flat_scenario = Ok st
    ∧ trade_log st !! 0%nat = Some b
    ∧ trade_log st !! 1%nat = Some s
    ∧ t_Action b = BUY ∧ t_Shares s = t_Shares b.
Proof.
  do 3 eexists.
  assert (Hrun : simulate (1 # 1000) (initial_portfolio 10000) flat_scenario
                 = Ok ?[st]) by (cbv; reflexivity).
  split; [exact Hrun|]. split; [reflexivity|]. split; [reflexivity|].
  exact (sell_closes_previous_buy 10000 (1 # 1000) flat_scenario _ 0 _ _
           Hrun eq_refl eq_refl eq_refl).
Defined.

Lemma metrics_ok (annualized_std : list (option num) → num) (capital : Q)
    (log : list Trade) (values : list Snapshot) (data : list Row) :
  length values = length data →
  is_ok (profitable_trades log) →
  is_ok (calculate_performance_metrics annualized_std capital log values data).
Proof.
  intros Hlen Hlog. unfold calculate_performance_metrics.
  destruct (last values) as [final|] eqn:Hlast; [|exact I].
  destruct data as [|first_row data'].
  { apply last_Some in Hlast. destruct Hlast as [l' ->].
    rewrite length_app in Hlen. simpl in Hlen. lia. }
  destruct (last (first_row :: data')) as [last_row|] eqn:E.
  2:{ apply last_None in E. discriminate. }
  simpl. unfold win_rate.
  destruct log as [|t log]; [exact I|].
  destruct (profitable_trades (t :: log)) as [n|]; [exact I|destruct Hlog].
Qed.

Lemma simulate_idle (r : Q) (data : list Row) :
  Forall (fun row => Signal row ≠ buy_signal) data →
  ∀ c log pv,
    simulate r (mkPortfolio c 0 log pv) data
    = Ok (mkPortfolio c 0 log (pv ++ (idle_snapshot c <$> data))).
Proof.
  induction 1 as [|row data Hrow _ IH]; intros c log pv; simpl.
  - rewrite app_nil_r. reflexivity.
  - unfold step, execute_trade. simpl.
    destruct (Z.eqb_spec (Signal row) 1) as [Hb|_]; [contradiction|].
    simpl. rewrite andb_false_r. simpl.
    unfold record_value. simpl. rewrite IH, <- app_assoc. reflexivity.
Qed.

(** X5: when no row carries the Buy signal, [run_backtest] completes
    whatever the prices are, logs no trade, and every snapshot shows the
    initial capital in cash and no shares. *)
Theorem no_buy_signal_no_trade (annualized_std : list (option num) → num)
    (capital r : Q) (data : list Row) :
  Forall (fun row => Signal row ≠ buy_signal) data →
  ∃ out,
    run_backtest annualized_std capital r data = Ok out
    ∧ trades out = []
    ∧ snapshots out = idle_snapshot capital <$> data.
Proof.
  intros H. unfold run_backtest, initial_portfolio.
  rewrite (simulate_idle r data H). simpl.
  pose proof (metrics_ok annualized_std capital [] (idle_snapshot capital <$> data)
                data (length_fmap _ _) I) as Hok.
  destruct (calculate_performance_metrics _ _ _ _ _) as [m|]; [|destruct Hok].
  simpl. eexists. split; [reflexivity|]. split; reflexivity.
Qed.

Lemma no_buy_signal_no_trade_witness :
  ∃ out,
    run_backtest (fun _ => NonFinite) 10000 (1 # 1000)
      [mkRow 0 100 0 0; mkRow 1 0 (-1) 0; mkRow 2 90 0 0] = Ok out
    ∧ trades out = []
    ∧ snapshots out =
        idle_snapshot 10000 <$>
          [mkRow 0 100 0 0; mkRow 1 0 (-1) 0; mkRow 2 90 0 0].
Proof.
  apply no_buy_signal_no_trade. repeat constructor; discriminate.
Defined.

Lemma run_backtest_after_simulate (annualized_std : list (option num) → num)
    (capital r : Q) (data : list Row) (st : Portfolio) :
  simulate r (initial_portfolio capital) data = Ok st →
  is_ok (run_backtest annualized_std capital r data).
Proof.
  intros H. unfold run_backtest. rewrite H. simpl.
  destruct (simulate_position_ok r data _ _ H
              (initial_portfolio_position_ok capital))
    as (Halt & _ & _ & Hkeys).
  pose proof (simulate_snapshots_length r data _ _ H) as Hlen. simpl in Hlen.
  pose proof (metrics_ok annualized_std capital (trade_log st)
                (portfolio_values st) data Hlen
                (profitable_trades_ok _ _ (Nat.le_refl _) Halt Hkeys)) as Hok.
  destruct (calculate_performance_metrics _ _ _ _ _); [exact I|destruct Hok].
Qed.

Lemma execute_trade64_raise (r : float) (st : Portfolio64) (row : Row64)
    (e : exn) :
  execute_trade64 r st row = Raise e
  ↔ Signal64 row = buy_signal ∧ shares64 st = 0
    ∧ int_of_float
        ((cash64 st - cash64 st * r) / Close64 row)%float = Raise e.
Proof.
  unfold execute_trade64, buy_signal.
  destruct (Z.eqb_spec (Signal64 row) 1) as [Hb|Hb];
    destruct (Z.eqb_spec (shares64 st) 0) as [Hz|Hz]; simpl.
  - destruct (int_of_float _) as [n|e']; simpl.
    + destruct (0 <? n); split; [discriminate|intros (_ & _ & H);
        discriminate|discriminate|intros (_ & _ & H); discriminate].
    + split; [intros H; injection H as <-; tauto|].
      intros (_ & _ & H). injection H as <-. reflexivity.
  - rewrite Hb. simpl. split; [discriminate|tauto].
  - destruct ((Signal64 row =? -1) && (0 <? shares64 st));
      (split; [discriminate|tauto]).
  - destruct ((Signal64 row =? -1) && (0 <? shares64 st));
      (split; [discriminate|tauto]).
Qed.

Lemma int_of_float_raise (x : float) (e : exn) :
  int_of_float x = Raise e
  ↔ match Prim2SF x with
    | S754_nan => e = ValueError
    | S754_infinity _ => e = OverflowError
    | S754_zero _ | S754_finite _ _ _ => False
    end.
Proof.
  unfold int_of_float.
  destruct (Prim2SF x); split; intros H;
    try discriminate; try contradiction;
    try (injection H as <-; reflexivity); subst; reflexivity.
Qed.

(** X6: on binary64, a period raises exactly when it carries the Buy
    signal while no share is held and the quotient
    [(cash - cash * r) / price] is an infinity, which [int] refuses with
    an OverflowError, or [nan], which it refuses with a ValueError; every
    other period completes.  So a run raises only one of these two, and
    only on data with a Buy signal.  Once the loop has completed, the
    metrics code raises nothing: neither the KeyError nor the IndexError
    it could raise on another log. *)
Theorem run_backtest_raises_only_in_int
    (annualized_std : list (option num) → num) :
  (∀ r st row e,
     step64 r st row = Raise e
     ↔ Signal64 row = buy_signal ∧ shares64 st = 0
       ∧ match Prim2SF ((cash64 st - cash64 st * r) / Close64 row)%float with
         | S754_nan => e = ValueError
         | S754_infinity _ => e = OverflowError
         | S754_zero _ | S754_finite _ _ _ => False
         end)
  ∧ (∀ r data st e,
       simulate64 r st data = Raise e →
       (e = ValueError ∨ e = OverflowError)
       ∧ ∃ row, row ∈ data ∧ Signal64 row = buy_signal)
  ∧ (∀ capital r data st,
       simulate r (initial_portfolio capital) data = Ok st →
       is_ok (run_backtest annualized_std capital r data)).
Proof.
  assert (Hstep : ∀ r st row e,
     step64 r st row = Raise e
     ↔ Signal64 row = buy_signal ∧ shares64 st = 0
       ∧ match Prim2SF ((cash64 st - cash64 st * r) / Close64 row)%float with
         | S754_nan => e = ValueError
         | S754_infinity _ => e = OverflowError
         | S754_zero _ | S754_finite _ _ _ => False
         end).
  { intros r st row e. rewrite <- int_of_float_raise.
    rewrite <- execute_trade64_raise. unfold step64.
    destruct (execute_trade64 r st row) as [st'|e']; simpl.
    - split; discriminate.
    - reflexivity. }
  split; [exact Hstep|]. split.
  - intros r data. induction data as [|row data IH]; intros st e H;
      simpl in H; [discriminate|].
    destruct (step64 r st row) as [st1|e1] eqn:Hs; simpl in H.
    + destruct (IH _ _ H) as (He & row' & Hin & Hrow).
      split; [exact He|]. exists row'. split; [|exact Hrow].
      apply list_elem_of_further. exact Hin.
    + injection H as <-. apply Hstep in Hs. destruct Hs as (Hsig & _ & Hq).
      split.
      * destruct (Prim2SF _); [contradiction|right; exact Hq|left; exact Hq
                               |contradiction].
      * exists row. split; [apply list_elem_of_here|exact Hsig].
  - intros capital r data st. apply run_backtest_after_simulate.
Qed.

Lemma run_backtest_raises_only_in_int_witness :
  step64 (1 / 1000)%float (initial_portfolio64 1000%float)
    (mkRow64 0 0x1p-1020%float 1 0) = Raise OverflowError
  ∧ step64 (1 / 1000)%float (initial_portfolio64 0%float)
      (mkRow64 0 0%float 1 0) = Raise ValueError
  ∧ is_ok (run_backtest (fun _ => NonFinite) 10000 (1 # 1000) flat_scenario).
Proof.
  destruct (run_backtest_raises_only_in_int (fun _ => NonFinite))
    as (Hstep & _ & Hrest).
  split; [|split].
  - apply Hstep. split; [reflexivity|]. split; reflexivity.
  - apply Hstep. split; [reflexivity|]. split; reflexivity.
  - assert (Hsim : ∃ st,
              simulate (1 # 1000) (initial_portfolio 10000) flat_scenario
              = Ok st) by (eexists; cbv; reflexivity).
    destruct Hsim as [st Hsim]. exact (Hrest _ _ _ st Hsim).
Defined.

Lemma execute_trade_sell (r : Q) (st : Portfolio) (row : Row) :
  Signal row = sell_signal → 0 < shares st →
  execute_trade r st row
  = Ok (mkPortfolio
          (cash st + (inject_Z (shares st) * Close row
                      - inject_Z (shares st) * Close row * r))%Q
          0
          (trade_log st ++
             [mkTrade (Date row) SELL (shares st) (Close row) None
                (Some (inject_Z (shares st) * Close row)%Q)
                (inject_Z (shares st) * Close row * r)%Q
                (cash st + (inject_Z (shares st) * Close row
                            - inject_Z (shares st) * Close row * r))%Q
                0])
          (portfolio_values st)).
Proof.
  intros Hsig Hp. unfold execute_trade. rewrite Hsig. simpl.
  destruct (Z.eqb_spec (shares st) 0) as [Hz|_]; [lia|].
  destruct (Z.ltb_spec 0 (shares st)) as [_|Hc]; [reflexivity|lia].
Qed.

(** X7: buying from an empty portfolio and then selling everything at the
    same price leaves no shares and costs the two commissions, [cash * r]
    on the way in and [shares * price * r] on the way out. *)
Theorem round_trip_costs_two_commissions (r : Q) (st st1 st2 : Portfolio)
    (buy_row sell_row : Row) :
  shares st = 0 →
  execute_trade r st buy_row = Ok st1 →
  0 < shares st1 →
  Signal sell_row = sell_signal →
  (Close sell_row == Close buy_row)%Q →
  execute_trade r st1 sell_row = Ok st2 →
  shares st2 = 0
  ∧ (cash st2 ==
       cash st - (cash st * r + inject_Z (shares st1) * Close buy_row * r))%Q.
Proof.
  intros Hz Hbuy Hheld Hsig Hprice Hsell.
  destruct (execute_trade_cases _ _ _ _ Hbuy)
    as [->|[(_ & _ & n & Hn & _ & ->)|(_ & Hp & _)]]; [lia| |lia].
  rewrite (execute_trade_sell r _ sell_row Hsig Hheld) in Hsell.
  injection Hsell as <-. simpl in *. rewrite Hz in *. simpl in *.
  assert (Hcash : (cash st - (inject_Z n * Close buy_row + cash st * r)
                   + (inject_Z n * Close sell_row
                      - inject_Z n * Close sell_row * r)
                   == cash st - (cash st * r
                                 + inject_Z n * Close buy_row * r))%Q).
  { rewrite Hprice. ring. }
  split; [reflexivity|exact Hcash].
Qed.

Lemma round_trip_costs_two_commissions_witness :
  ∃ st1 st2,
    execute_trade (1 # 1000) (initial_portfolio 10000) (mkRow 1 100 1 0)
      = Ok st1
    ∧ execute_trade (1 # 1000) st1 (mkRow 2 100 (-1) 0) = Ok st2
    ∧ shares st2 = 0
    ∧ (cash st2 ==
         10000 - (10000 * (1 # 1000)
                  + inject_Z (shares st1) * 100 * (1 # 1000)))%Q.
Proof.
  assert (Hrun : ∃ st1,
            execute_trade (1 # 1000) (initial_portfolio 10000)
              (mkRow 1 100 1 0) = Ok st1
            ∧ 0 < shares st1
            ∧ ∃ st2, execute_trade (1 # 1000) st1 (mkRow 2 100 (-1) 0)
                     = Ok st2).
  { eexists. split; [cbv; reflexivity|]. split; [reflexivity|].
    eexists. cbv. reflexivity. }
  destruct Hrun as (st1 & Hbuy & Hheld & st2 & Hsell).
  destruct (round_trip_costs_two_commissions (1 # 1000)
              (initial_portfolio 10000) st1 st2
              (mkRow 1 100 1 0) (mkRow 2 100 (-1) 0)
              eq_refl Hbuy Hheld eq_refl ltac:(reflexivity) Hsell)
    as (H0 & Heq).
  exists st1, st2.
  split; [exact Hbuy|]. split; [exact Hsell|]. split; [exact H0|exact Heq].
Defined.

(** X8: a period changes the portfolio's value at that period's price only
    by the commission of the trade it executes: the snapshot's value is the
    value before the period when nothing is traded, and that value less the
    logged commission when a trade is. *)
Theorem trade_costs_only_commission (r : Q) (st st' : Portfolio) (row : Row) :
  step r st row = Ok st' →
  ∃ s,
    last (portfolio_values st') = Some s
    ∧ ((trade_log st' = trade_log st
        ∧ (s_Portfolio_Value s ==
             cash st + inject_Z (shares st) * Close row)%Q)
       ∨ (∃ t, trade_log st' = trade_log st ++ [t]
               ∧ (s_Portfolio_Value s ==
                    cash st + inject_Z (shares st) * Close row
                    - t_Commission t)%Q)).
Proof.
  intros H. destruct (step_cases _ _ _ _ H) as (st1 & Hex & ->).
  unfold record_value. cbn [portfolio_values]. rewrite last_snoc.
  eexists. split; [reflexivity|]. cbn [s_Portfolio_Value trade_log].
  destruct (execute_trade_cases _ _ _ _ Hex)
    as [->|[(_ & Hz & n & _ & _ & ->)|(_ & _ & ->)]].
  - left. split; reflexivity.
  - right. eexists. split; [reflexivity|].
    cbn [t_Commission cash shares]. rewrite Hz. change (0 + n) with n.
    change (inject_Z 0) with 0%Q. ring.
  - right. eexists. split; [reflexivity|].
    cbn [t_Commission cash shares].
    change (inject_Z 0) with 0%Q. ring.
Qed.

Lemma trade_costs_only_commission_witness :
  ∃ st' s t,
    step (1 # 10) (mkPortfolio 0 99 [] []) (mkRow 2 1 (-1) 0) = Ok st'
    ∧ last (portfolio_values st') = Some s
    ∧ trade_log st' = [] ++ [t]
    ∧ (s_Portfolio_Value s == 0 + inject_Z 99 * 1 - t_Commission t)%Q.
Proof.
  eexists.
  assert (Hstep : step (1 # 10) (mkPortfolio 0 99 [] []) (mkRow 2 1 (-1) 0)
                  = Ok ?[st']) by (cbv; reflexivity).
  destruct (trade_costs_only_commission _ _ _ _ Hstep)
    as (s & Hs & [[Hlog _]|(t & Hlog & Hv)]); [discriminate Hlog|].
  exists s, t. split; [exact Hstep|]. split; [exact Hs|].
  split; [exact Hlog|exact Hv].
Defined.

(** * Further properties of the analyzer *)

(** Induction over a list two elements at a time, as the win-rate loop
    walks the trade log. *)
Lemma pair_induction {A : Type} (P : list A → Prop) :
  P [] → (∀ x, P [x]) → (∀ x y l, P l → P (x :: y :: l)) → ∀ l, P l.
Proof.
  intros H0 H1 H2.
  assert (Hboth : ∀ l, P l ∧ ∀ x, P (x :: l)).
  { induction l as [|y l [IHl IHc]].
    - split; [exact H0|exact H1].
    - split; [apply IHc|]. intros x. apply H2. exact IHl. }
  intros l. apply Hboth.
Qed.

Lemma half_succ_succ (n : nat) :
  Z.of_nat (S (S n)) / 2 = Z.of_nat n / 2 + 1.
Proof.
  replace (Z.of_nat (S (S n))) with (Z.of_nat n + 1 * 2) by lia.
  apply Z.div_add. lia.
Qed.

Lemma profitable_trades_bounds (log : list Trade) :
  ∀ k, profitable_trades log = Ok k → 0 <= k <= Z.of_nat (length log) / 2.
Proof.
  induction log as [|x|b s rest IH] using pair_induction; intros k H.
  - injection H as <-. change (Z.of_nat (length []) / 2) with 0. lia.
  - injection H as <-. change (Z.of_nat (length [x]) / 2) with 0. lia.
  - cbn [profitable_trades] in H.
    destruct (getitem (t_Proceeds s)) as [p|]; [|discriminate].
    destruct (getitem (t_Cost b)) as [c|]; [|discriminate].
    simpl in H.
    destruct (profitable_trades rest) as [k'|]; [|discriminate].
    simpl in H. specialize (IH k' eq_refl).
    cbn [length]. rewrite half_succ_succ.
    destruct (Qltb c p); injection H as <-; lia.
Qed.

Lemma win_rate_between (log : list Trade) (pairs : Z) (rate : num) :
  win_rate log = Ok (pairs, rate) →
  ∃ q, rate = Fin q ∧ (0 <= q)%Q ∧ (q <= 1)%Q.
Proof.
  unfold win_rate. destruct log as [|t log].
  - intros H. injection H as <- <-. exists 0%Q. split; [reflexivity|].
    split; lra.
  - destruct (profitable_trades (t :: log)) as [k|] eqn:Hk; [|discriminate].
    apply profitable_trades_bounds in Hk.
    remember (Z.of_nat (length (t :: log)) / 2) as total eqn:Htotal.
    simpl. intros H. injection H as <- <-.
    destruct (Z.ltb_spec 0 total) as [Hp|Hp].
    + unfold fdiv.
      pose proof (inject_Z_pos _ Hp) as Hq.
      destruct (Qeq_bool (inject_Z total) 0) eqn:E;
        [apply Qeq_bool_iff in E; lra|].
      eexists. split; [reflexivity|]. split.
      * apply Qle_shift_div_l; [exact Hq|].
        rewrite Qmult_0_l. apply inject_Z_nonneg. lia.
      * apply Qle_shift_div_r; [exact Hq|].
        rewrite Qmult_1_l. rewrite <- Zle_Qle. lia.
    + exists 0%Q. split; [reflexivity|]. split; lra.
Qed.

(** The fields of the result dictionary that the properties below read. *)
Lemma metrics_fields (annualized_std : list (option num) → num) (capital : Q)
    (log : list Trade) (values : list Snapshot) (data : list Row)
    (m : Metrics) :
  calculate_performance_metrics annualized_std capital log values data
    = Ok (Some m) →
  ∃ pairs rate first_row last_row,
    win_rate log = Ok (pairs, rate)
    ∧ head data = Some first_row
    ∧ last data = Some last_row
    ∧ total_trades m = Z.of_nat (length log)
    ∧ trade_pairs m = pairs
    ∧ win_rate_pct m = nlift (fun x => x * 100)%Q rate
    ∧ Drawdown m = drawdown (s_Portfolio_Value <$> values)
    ∧ max_drawdown_pct m =
        match column_min (drawdown (s_Portfolio_Value <$> values)) with
        | Some d => nlift (fun x => x * 100)%Q d
        | None => NonFinite
        end
    ∧ buy_hold_final_value m =
        nlift (fun b => capital * (1 + b))%Q
          (fdiv (Close last_row - Close first_row) (Close first_row)).
Proof.
  unfold calculate_performance_metrics. intros H.
  destruct (last values) as [final|]; [|discriminate].
  destruct (head data) as [first_row|]; [|discriminate].
  destruct (last data) as [last_row|]; [|discriminate].
  simpl in H.
  destruct (win_rate log) as [[pairs rate]|]; [|discriminate].
  simpl in H. injection H as <-.
  exists pairs, rate, first_row, last_row. simpl. repeat split.
Qed.

(** X9: whenever the metrics are computed, the number of trade pairs is
    half the number of trades rounded down, and the win rate is a
    percentage between 0 and 100. *)
Theorem win_rate_is_a_percentage (annualized_std : list (option num) → num)
    (capital : Q) (log : list Trade) (values : list Snapshot)
    (data : list Row) (m : Metrics) :
  calculate_performance_metrics annualized_std capital log values data
    = Ok (Some m) →
  trade_pairs m = total_trades m / 2
  ∧ ∃ q, win_rate_pct m = Fin q ∧ (0 <= q)%Q ∧ (q <= 100)%Q.
Proof.
  intros H.
  destruct (metrics_fields _ _ _ _ _ _ H)
    as (pairs & rate & _ & _ & Hw & _ & _ & Htot & Hpairs & Hrate & _).
  destruct (win_rate_guarded _ _ _ Hw) as (Hp & _).
  destruct (win_rate_between _ _ _ Hw) as (q & -> & Hq0 & Hq1).
  split; [rewrite Hpairs, Htot; exact Hp|].
  rewrite Hrate. simpl. eexists. split; [reflexivity|]. split; lra.
Qed.

Lemma win_rate_is_a_percentage_witness :
  ∃ m,
    calculate_performance_metrics (fun _ => NonFinite) 10000
      [mkTrade 1 BUY 99 100 (Some 9900%Q) None 10 90 99;
       mkTrade 2 SELL 99 101 None (Some 9999%Q) 10 10079 0;
       mkTrade 3 BUY 100 100 (Some 10000%Q) None 10 69 100]
      [mkSnapshot 3 69 100 100 10069] [mkRow 3 100 1 1] = Ok (Some m)
    ∧ trade_pairs m = total_trades m / 2
    ∧ ∃ q, win_rate_pct m = Fin q ∧ (0 <= q)%Q ∧ (q <= 100)%Q.
Proof.
  eexists.
  assert (H : calculate_performance_metrics (fun _ => NonFinite) 10000
      [mkTrade 1 BUY 99 100 (Some 9900%Q) None 10 90 99;
       mkTrade 2 SELL 99 101 None (Some 9999%Q) 10 10079 0;
       mkTrade 3 BUY 100 100 (Some 10000%Q) None 10 69 100]
      [mkSnapshot 3 69 100 100 10069] [mkRow 3 100 1 1] = Ok (Some ?[m]))
    by (cbv; reflexivity).
  split; [exact H|].
  exact (win_rate_is_a_percentage _ _ _ _ _ _ H).
Defined.

Lemma profitable_trades_snoc (log : list Trade) :
  Nat.even (length log) = true →
  ∀ t, profitable_trades (log ++ [t]) = profitable_trades log.
Proof.
  induction log as [|x|b s rest IH] using pair_induction; intros Heven t.
  - reflexivity.
  - discriminate Heven.
  - cbn [app profitable_trades]. rewrite (IH Heven t). reflexivity.
Qed.

Lemma half_even_succ (n : nat) :
  Nat.even n = true → Z.of_nat (S n) / 2 = Z.of_nat n / 2.
Proof.
  intros H. apply Nat.even_spec in H. destruct H as [m ->].
  replace (Z.of_nat (S (2 * m))) with (1 + Z.of_nat m * 2) by lia.
  replace (Z.of_nat (2 * m)) with (0 + Z.of_nat m * 2) by lia.
  rewrite !Z.div_add by lia. reflexivity.
Qed.

(** X10: a trade appended to a log of complete pairs, such as the Buy of a
    position still open at the end of the data, changes neither the number
    of trade pairs nor the win rate. *)
Theorem open_buy_not_counted (log : list Trade) (t : Trade) :
  Nat.even (length log) = true →
  win_rate (log ++ [t]) = win_rate log.
Proof.
  intros Heven. destruct log as [|x log]; [reflexivity|].
  unfold win_rate. cbn [app].
  change (x :: log ++ [t]) with ((x :: log) ++ [t]).
  rewrite (profitable_trades_snoc _ Heven t), length_app.
  cbn [length]. rewrite Nat.add_1_r.
  rewrite (half_even_succ (S (length log)) Heven). reflexivity.
Qed.

Lemma open_buy_not_counted_witness :
  win_rate
    ([mkTrade 1 BUY 99 100 (Some 9900%Q) None 10 90 99;
      mkTrade 2 SELL 99 101 None (Some 9999%Q) 10 10079 0]
     ++ [mkTrade 3 BUY 100 100 (Some 10000%Q) None 10 69 100])
  = win_rate
      [mkTrade 1 BUY 99 100 (Some 9900%Q) None 10 90 99;
       mkTrade 2 SELL 99 101 None (Some 9999%Q) 10 10079 0].
Proof.
  apply open_buy_not_counted. reflexivity.
Defined.

Lemma drawdown_entry_in_range (v peak : Q) :
  (0 < v)%Q → (v <= peak)%Q → drawdown_in_range (drawdown_entry v peak).
Proof.
  intros Hv Hp. unfold drawdown_entry, fdiv.
  destruct (Qeq_bool peak 0) eqn:E; [apply Qeq_bool_iff in E; lra|].
  simpl. eexists. split; [reflexivity|]. split.
  - apply Qle_shift_div_l; lra.
  - apply Qle_shift_div_r; lra.
Qed.

Lemma drawdown_from_in_range (vs : list Q) :
  ∀ peak, (0 < peak)%Q → Forall (fun v => (0 < v)%Q) vs →
    Forall drawdown_in_range
      (zip_with drawdown_entry vs (expanding_max_from peak vs)).
Proof.
  induction vs as [|v vs IH]; intros peak Hp Hvs; simpl; [constructor|].
  inversion Hvs as [|? ? Hv Hvs']; subst.
  destruct (Qle_bool peak v) eqn:E.
  - constructor; [apply drawdown_entry_in_range; lra|].
    apply IH; assumption.
  - assert ((v <= peak)%Q).
    { apply Qlt_le_weak, Qnot_le_lt. intros Hle.
      apply Qle_bool_iff in Hle. congruence. }
    constructor; [apply drawdown_entry_in_range; assumption|].
    apply IH; assumption.
Qed.

Lemma drawdown_all_in_range (vs : list Q) :
  Forall (fun v => (0 < v)%Q) vs → Forall drawdown_in_range (drawdown vs).
Proof.
  unfold drawdown. intros [|v vs' Hv Hvs]; simpl; [constructor|].
  constructor; [apply drawdown_entry_in_range; lra|].
  apply drawdown_from_in_range; assumption.
Qed.

Lemma column_min_in_range (xs : list (option num)) :
  xs ≠ [] → Forall drawdown_in_range xs → drawdown_in_range (column_min xs).
Proof.
  intros Hne H. unfold column_min.
  assert (Hgen : ∀ acc,
            acc = None ∧ xs ≠ [] ∨ drawdown_in_range acc →
            drawdown_in_range
              (foldl (fun acc x =>
                        match acc, x with
                        | Some a, Some b => Some (nmin a b)
                        | None, _ => x
                        | Some a, None => Some a
                        end) acc xs)).
  { clear Hne. induction H as [|x xs Hx _ IH]; intros acc Hacc.
    - destruct Hacc as [[_ Hn]|Hacc]; [contradiction|exact Hacc].
    - simpl. apply IH. right.
      destruct Hacc as [[-> _]|(a & -> & Ha)]; [exact Hx|].
      destruct Hx as (b & -> & Hb). simpl.
      destruct (Qle_bool a b); eexists; (split; [reflexivity|assumption]). }
  apply Hgen. left. split; [reflexivity|exact Hne].
Qed.

(** X11: whenever the metrics are computed from positive portfolio values,
    every drawdown lies between -1 and 0, and the reported maximum
    drawdown is a percentage between -100 and 0. *)
Theorem drawdown_is_a_loss_of_at_most_100
    (annualized_std : list (option num) → num) (capital : Q)
    (log : list Trade) (values : list Snapshot) (data : list Row)
    (m : Metrics) :
  calculate_performance_metrics annualized_std capital log values data
    = Ok (Some m) →
  Forall (fun s => (0 < s_Portfolio_Value s)%Q) values →
  Forall drawdown_in_range (Drawdown m)
  ∧ ∃ d, max_drawdown_pct m = Fin d ∧ (- (100) <= d)%Q ∧ (d <= 0)%Q.
Proof.
  intros Hres Hv.
  destruct (metrics_fields _ _ _ _ _ _ Hres)
    as (_ & _ & _ & _ & _ & _ & _ & _ & _ & _ & Hdd & Hmax & _).
  assert (Hvs : Forall (fun v => (0 < v)%Q) (s_Portfolio_Value <$> values)).
  { apply Forall_fmap. exact Hv. }
  pose proof (drawdown_all_in_range _ Hvs) as Hrange.
  rewrite Hdd, Hmax. split; [exact Hrange|].
  assert (Hne : drawdown (s_Portfolio_Value <$> values) ≠ []).
  { unfold calculate_performance_metrics in Hres.
    destruct (last values) as [final|] eqn:E; [|discriminate].
    apply last_Some in E. destruct E as [l' ->].
    unfold drawdown. rewrite fmap_app. simpl. destruct l'; discriminate. }
  destruct (column_min_in_range _ Hne Hrange) as (d & -> & H1 & H2).
  simpl. eexists. split; [reflexivity|]. split; lra.
Qed.

Lemma drawdown_is_a_loss_of_at_most_100_witness :
  ∃ m,
    calculate_performance_metrics (fun _ => NonFinite) 100 []
      [mkSnapshot 0 100 0 100 100; mkSnapshot 1 100 0 50 50]
      [mkRow 0 100 0 0; mkRow 1 50 0 0] = Ok (Some m)
    ∧ Forall drawdown_in_range (Drawdown m)
    ∧ ∃ d, max_drawdown_pct m = Fin d ∧ (- (100) <= d)%Q ∧ (d <= 0)%Q.
Proof.
  assert (Hm : ∃ m,
             calculate_performance_metrics (fun _ => NonFinite) 100 []
               [mkSnapshot 0 100 0 100 100; mkSnapshot 1 100 0 50 50]
               [mkRow 0 100 0 0; mkRow 1 50 0 0] = Ok (Some m))
    by (eexists; cbv; reflexivity).
  destruct Hm as [m Hm]. exists m. split; [exact Hm|].
  apply (drawdown_is_a_loss_of_at_most_100 _ _ _ _ _ _ Hm).
  repeat constructor.
Defined.

(** X12: when the volatility is positive the risk-adjusted ratio is the
    total return divided by the volatility: the two factors 252 cancel and
    no risk-free rate is subtracted. *)
Theorem sharpe_is_return_over_volatility (x v : Q) :
  (0 < v)%Q →
  ∃ q, sharpe_ratio_of (Fin x) (Fin v) = Fin q ∧ (q == x / v)%Q.
Proof.
  intros Hv. unfold sharpe_ratio_of. simpl.
  assert (Hpos : Qltb 0 v = true) by (apply Qltb_lt; exact Hv).
  rewrite Hpos. unfold fdiv.
  destruct (Qeq_bool (v * 252) 0) eqn:E; [apply Qeq_bool_iff in E; lra|].
  eexists. split; [reflexivity|]. field. lra.
Qed.

Lemma sharpe_is_return_over_volatility_witness :
  ∃ q, sharpe_ratio_of (Fin (1 # 10)) (Fin (1 # 5)) = Fin q
       ∧ (q == (1 # 10) / (1 # 5))%Q.
Proof.
  apply sharpe_is_return_over_volatility. reflexivity.
Defined.

(** * Further properties of the strategy *)

Lemma position_loop_length (signal : list Z) :
  ∀ position, length (position_loop position signal) = length signal.
Proof.
  induction signal as [|s signal IH]; intros position; simpl;
    [reflexivity|].
  rewrite IH. reflexivity.
Qed.

Lemma position_loop_zeros (n : nat) :
  position_loop 0 (replicate n 0) = replicate n 0.
Proof.
  induction n as [|n IH]; simpl; [reflexivity|]. rewrite IH. reflexivity.
Qed.

Lemma in_position_cons (s : Z) (signal : list Z) (i : nat) :
  in_position (s :: signal) (S i)
  ↔ in_position signal i ∨ (s = buy_signal ∧ no_sell_until signal i).
Proof.
  split.
  - intros ([|j] & Hj & Hbuy & Hno).
    + right. injection Hbuy as ->. split; [reflexivity|].
      intros k Hk. apply (Hno (S k)); lia.
    + left. exists j. split; [lia|]. split; [exact Hbuy|].
      intros k H1 H2. apply (Hno (S k)); lia.
  - intros [(j & Hj & Hbuy & Hno)|[-> Hno]].
    + exists (S j). split; [lia|]. split; [exact Hbuy|].
      intros [|k] H1 H2; [lia|]. apply Hno; lia.
    + exists O. split; [lia|]. split; [reflexivity|].
      intros [|k] H1 H2; [lia|]. apply Hno. lia.
Qed.

Lemma no_sell_until_cons (s : Z) (signal : list Z) (i : nat) :
  no_sell_until (s :: signal) (S i)
  ↔ s ≠ sell_signal ∧ no_sell_until signal i.
Proof.
  split.
  - intros H. split.
    + intros ->. apply (H O); [lia|reflexivity].
    + intros k Hk. apply (H (S k)). lia.
  - intros [Hs H] [|k] Hk.
    + simpl. intros E. injection E as E. contradiction.
    + apply H. lia.
Qed.

Lemma position_loop_spec (signal : list Z) :
  ∀ position i p,
    position = 0 ∨ position = 1 →
    position_loop position signal !! i = Some p →
    (p = 0 ∨ p = 1)
    ∧ (p = 1 ↔ in_position signal i
               ∨ (position = 1 ∧ no_sell_until signal i)).
Proof.
  unfold buy_signal, sell_signal.
  induction signal as [|s signal IH]; intros position i p Hpos Hp;
    [discriminate|].
  simpl in Hp. destruct i as [|i].
  - injection Hp as <-.
    assert (Hin : in_position (s :: signal) 0 ↔ s = 1).
    { split.
      - intros (j & Hj & Hbuy & _). replace j with O in Hbuy by lia.
        injection Hbuy as ->. reflexivity.
      - intros ->. exists O. split; [lia|]. split; [reflexivity|].
        intros k H1 H2. lia. }
    assert (Hno : no_sell_until (s :: signal) 0 ↔ s ≠ -1).
    { split.
      - intros H ->. apply (H O); [lia|reflexivity].
      - intros H k Hk. replace k with O by lia. simpl.
        intros E. injection E as E. contradiction. }
    rewrite Hin, Hno.
    destruct (Z.eqb_spec s 1) as [->|H1]; [split; [tauto|]; split; tauto|].
    destruct (Z.eqb_spec s (-1)) as [->|H2].
    + split; [tauto|]. split; [discriminate|]. intros [H|[_ H]]; lia.
    + split; [tauto|]. split; [tauto|]. intros [H|[H _]]; [lia|exact H].
  - simpl in Hp.
    assert (Hpos' : (if s =? 1 then 1 else if s =? -1 then 0 else position)
                    = 0
                    ∨ (if s =? 1 then 1 else if s =? -1 then 0 else position)
                      = 1).
    { destruct (s =? 1); [tauto|]. destruct (s =? -1); tauto. }
    destruct (IH _ i p Hpos' Hp) as (Hp01 & Hiff).
    split; [exact Hp01|].
    rewrite Hiff, in_position_cons, no_sell_until_cons.
    unfold buy_signal, sell_signal.
    destruct (Z.eqb_spec s 1) as [->|H1]; [split; [|tauto]; intros [?|[_ ?]];
      tauto|].
    destruct (Z.eqb_spec s (-1)) as [->|H2].
    + split; [intros [?|[? _]]; [tauto|discriminate]|].
      intros [[?|[? _]]|[_ [? _]]]; [tauto|discriminate|contradiction].
    + tauto.
Qed.

Lemma generate_signals_position_col (data : Frame) (sw lw : Z)
    (df : SignalFrame) :
  generate_signals data sw lw = Ok df →
  position_col df = position_loop 0 (signal_col df).
Proof.
  unfold generate_signals. intros H.
  destruct (ma data !! sw) as [sc|]; [|discriminate].
  destruct (ma data !! lw) as [lc|]; [|discriminate].
  simpl in H.
  destruct (length (dropna sc lc) <? 2)%nat; injection H as <-; simpl;
    [|reflexivity].
  symmetry. apply position_loop_zeros.
Qed.

(** X13: in the frame [generate_signals] returns, the ['Position'] column
    has one entry per signal, each 0 or 1, and it is 1 on a row exactly
    when the most recent Buy or Sell signal up to that row is a Buy. *)
Theorem position_follows_last_signal (data : Frame) (sw lw : Z)
    (df : SignalFrame) :
  generate_signals data sw lw = Ok df →
  length (position_col df) = length (signal_col df)
  ∧ ∀ i p, position_col df !! i = Some p →
           (p = 0 ∨ p = 1) ∧ (p = 1 ↔ in_position (signal_col df) i).
Proof.
  intros H. rewrite (generate_signals_position_col _ _ _ _ H).
  split; [apply position_loop_length|].
  intros i p Hp.
  destruct (position_loop_spec _ 0 i p ltac:(tauto) Hp) as (H01 & Hiff).
  split; [exact H01|]. rewrite Hiff.
  split; [intros [?|[? _]]; [assumption|discriminate]|tauto].
Qed.

Lemma position_follows_last_signal_witness :
  ∃ df,
    generate_signals crossing_frame 1 2 = Ok df
    ∧ position_col df !! 2%nat = Some 1
    ∧ in_position (signal_col df) 2.
Proof.
  eexists.
  assert (Hrun : generate_signals crossing_frame 1 2 = Ok ?[df])
    by (vm_compute; reflexivity).
  split; [exact Hrun|]. split; [reflexivity|].
  destruct (position_follows_last_signal _ _ _ _ Hrun) as (_ & Hrows).
  exact (proj1 (proj2 (Hrows 2%nat 1 eq_refl)) eq_refl).
Defined.

Lemma slice_take {A : Type} (l : list A) (k a b : nat) :
  (b <= k)%nat → slice (take k l) a b = slice l a b.
Proof.
  intros Hb. unfold slice.
  destruct (Nat.le_gt_cases a b) as [Hab|Hab].
  - rewrite !take_drop_commute, take_take.
    replace (a + (b - a))%nat with b by lia.
    replace (b `min` k)%nat with b by lia. reflexivity.
  - replace (b - a)%nat with O by lia. reflexivity.
Qed.

Lemma slide_window_take (values : list Q) (k w i : nat) (st : Q * nat) :
  (S i <= k)%nat →
  slide_window (take k values) w i st = slide_window values w i st.
Proof.
  intros Hi. unfold slide_window, window_start, window_end.
  rewrite !slice_take by lia. reflexivity.
Qed.

Lemma roll_mean_loop_take_values (values : list Q) (k w minp : nat) :
  ∀ todo i st,
    (i + todo <= k)%nat →
    roll_mean_loop (take k values) w minp todo i st
    = roll_mean_loop values w minp todo i st.
Proof.
  induction todo as [|todo IH]; intros i st Hk; simpl; [reflexivity|].
  rewrite slide_window_take by lia. rewrite IH by lia. reflexivity.
Qed.

Lemma roll_mean_loop_prefix (values : list Q) (w minp : nat) :
  ∀ todo m i st,
    (m <= todo)%nat →
    take m (roll_mean_loop values w minp todo i st)
    = roll_mean_loop values w minp m i st.
Proof.
  induction todo as [|todo IH]; intros [|m] i st Hm; simpl;
    try reflexivity; [lia|].
  rewrite IH by lia. reflexivity.
Qed.

(** The rolling mean of the first [k] prices is the first [k] entries of
    the rolling mean of all prices. *)
Lemma roll_mean_take (values : list Q) (w k : nat) :
  roll_mean (take k values) w = take k (roll_mean values w).
Proof.
  unfold roll_mean. rewrite length_take.
  rewrite roll_mean_loop_take_values by lia.
  destruct (Nat.le_gt_cases k (length values)) as [Hk|Hk].
  - replace (k `min` length values)%nat with k by lia.
    rewrite roll_mean_loop_prefix by lia. reflexivity.
  - replace (k `min` length values)%nat with (length values) by lia.
    rewrite take_ge; [reflexivity|].
    rewrite roll_mean_loop_length. lia.
Qed.

Lemma signals_from_take (sc : list (option Q)) :
  ∀ lc prev k,
    take k (signals_from prev sc lc)
    = signals_from prev (take k sc) (take k lc).
Proof.
  induction sc as [|s sc IH]; intros lc prev k.
  - simpl. rewrite !take_nil. reflexivity.
  - destruct lc as [|l lc].
    + simpl. rewrite !take_nil. destruct k; reflexivity.
    + destruct k as [|k]; [reflexivity|].
      destruct s as [a|], l as [b|]; simpl; rewrite IH; reflexivity.
Qed.

Lemma position_loop_take (signal : list Z) :
  ∀ position k,
    take k (position_loop position signal)
    = position_loop position (take k signal).
Proof.
  induction signal as [|s signal IH]; intros position k.
  - cbn [position_loop]. rewrite !take_nil. reflexivity.
  - destruct k as [|k]; [reflexivity|]. simpl. rewrite IH. reflexivity.
Qed.

Lemma create_strategy_data_position (data : Frame) (sw lw : Z)
    (df : SignalFrame) :
  create_strategy_data data sw lw = Ok df →
  position_col df = position_loop 0 (signal_col df).
Proof.
  unfold create_strategy_data. intros H.
  destruct (calculate_moving_averages data sw lw) as [df_ma|]; [|discriminate].
  simpl in H. exact (generate_signals_position_col _ _ _ _ H).
Qed.

(** X14: the strategy does not look ahead.  On non-negative windows, the
    signals and positions computed from the first [k] rows of a frame are
    the first [k] signals and positions computed from the whole frame. *)
Theorem strategy_has_no_look_ahead (data : Frame) (sw lw : Z) (k : nat) :
  0 <= sw → 0 <= lw →
  ∃ df dfk,
    create_strategy_data data sw lw = Ok df
    ∧ create_strategy_data (head_rows k data) sw lw = Ok dfk
    ∧ signal_col dfk = take k (signal_col df)
    ∧ position_col dfk = take k (position_col df).
Proof.
  intros Hs Hl.
  destruct (create_strategy_data_signals data sw lw Hs Hl)
    as (df & Hdf & _ & Hsig).
  destruct (create_strategy_data_signals (head_rows k data) sw lw Hs Hl)
    as (dfk & Hdfk & _ & Hsigk).
  exists df, dfk. split; [exact Hdf|]. split; [exact Hdfk|].
  assert (Hprefix : signal_col dfk = take k (signal_col df)).
  { rewrite Hsigk, Hsig. simpl.
    rewrite !roll_mean_take, signals_from_take. reflexivity. }
  split; [exact Hprefix|].
  rewrite (create_strategy_data_position _ _ _ _ Hdf),
          (create_strategy_data_position _ _ _ _ Hdfk),
          Hprefix, position_loop_take.
  reflexivity.
Qed.

Lemma strategy_has_no_look_ahead_witness :
  ∃ df dfk,
    create_strategy_data (mkFrame [3; 1; 4; 1; 5]%Q ∅) 1 2 = Ok df
    ∧ create_strategy_data (head_rows 3 (mkFrame [3; 1; 4; 1; 5]%Q ∅)) 1 2
      = Ok dfk
    ∧ signal_col dfk = take 3 (signal_col df)
    ∧ position_col dfk = take 3 (position_col df).
Proof.
  apply strategy_has_no_look_ahead; lia.
Defined.

(** The signals are all Hold when no pair of consecutive defined rows
    crosses. *)
Lemma signals_all_hold (sc lc : list (option Q)) :
  length sc = length lc →
  (∀ i j p cur, previous_defined sc lc i j p → defined_at sc lc i cur →
                crossover p cur = 0) →
  signals_from None sc lc = replicate (length sc) 0.
Proof.
  intros Hlen Hflat. symmetry. apply replicate_as_Forall.
  split; [apply signals_from_length; exact Hlen|].
  apply Forall_lookup. intros i v Hv.
  assert (Hi : (i < length sc)%nat).
  { apply lookup_lt_Some in Hv. rewrite signals_from_length in Hv; assumption. }
  destruct (signals_from_cases sc lc None i Hlen Hi) as (v' & Hv' & Hcases).
  rewrite Hv in Hv'. injection Hv' as <-.
  destruct Hcases as [(j & p & cur & Hprev & Hdef & ->)
                     |[(p & cur & Hp & _)|[(-> & _)|(-> & _)]]];
    [|discriminate|reflexivity|reflexivity].
  symmetry. exact (Hflat i j p cur Hprev Hdef).
Qed.

Lemma roll_mean_length (values : list Q) (w : nat) :
  length (roll_mean values w) = length values.
Proof. unfold roll_mean. apply roll_mean_loop_length. Qed.

Lemma moving_average_defined_late (values : list Q) (w i : nat) (x : Q) :
  (0 < w)%nat → roll_mean values w !! i = Some (Some x) → (w <= S i)%nat.
Proof.
  intros Hw Hx.
  destruct (roll_mean_is_moving_average values w Hw) as (Hlen & Hrows).
  assert (Hi : (i < length values)%nat).
  { apply lookup_lt_Some in Hx. rewrite roll_mean_length in Hx. exact Hx. }
  destruct (Hrows i Hi) as (Hearly & _).
  destruct (Nat.le_gt_cases w (S i)) as [H|H]; [exact H|].
  rewrite (Hearly H) in Hx. discriminate.
Qed.

(** X15: with positive windows and no more prices than the larger window,
    at most one row has both averages, so the strategy emits Hold on every
    row and the position stays 0 throughout. *)
Theorem too_few_prices_all_hold (data : Frame) (sw lw : Z) :
  0 < sw → 0 < lw →
  (length (close data) <= Z.to_nat (Z.max sw lw))%nat →
  ∃ df,
    create_strategy_data data sw lw = Ok df
    ∧ signal_col df = replicate (length (close data)) 0
    ∧ position_col df = replicate (length (close data)) 0.
Proof.
  intros Hs Hl Hfew.
  destruct (create_strategy_data_signals data sw lw ltac:(lia) ltac:(lia))
    as (df & Hdf & _ & Hsig).
  exists df. split; [exact Hdf|].
  assert (Hall : signal_col df = replicate (length (close data)) 0).
  { rewrite Hsig, <- (roll_mean_length (close data) (Z.to_nat sw)).
    apply signals_all_hold; [rewrite !roll_mean_length; reflexivity|].
    intros i j p cur (Hj & (Hjs & Hjl) & _) (His & _). exfalso.
    apply moving_average_defined_late in Hjs; [|lia].
    apply moving_average_defined_late in Hjl; [|lia].
    apply lookup_lt_Some in His. rewrite roll_mean_length in His. lia. }
  split; [exact Hall|].
  rewrite (create_strategy_data_position _ _ _ _ Hdf), Hall.
  apply position_loop_zeros.
Qed.

Lemma too_few_prices_all_hold_witness :
  ∃ df,
    create_strategy_data (mkFrame [3; 1; 4]%Q ∅) 2 3 = Ok df
    ∧ signal_col df = replicate 3 0
    ∧ position_col df = replicate 3 0.
Proof.
  apply (too_few_prices_all_hold (mkFrame [3; 1; 4]%Q ∅) 2 3);
    [lia|lia|simpl; lia].
Defined.

(** X16: when both windows are the same, the two averages are one column,
    they never differ, and the strategy emits Hold on every row. *)
Theorem equal_windows_all_hold (data : Frame) (w : Z) :
  0 <= w →
  ∃ df,
    create_strategy_data data w w = Ok df
    ∧ signal_col df = replicate (length (close data)) 0
    ∧ position_col df = replicate (length (close data)) 0.
Proof.
  intros Hw.
  destruct (create_strategy_data_signals data w w Hw Hw)
    as (df & Hdf & _ & Hsig).
  exists df. split; [exact Hdf|].
  assert (Hall : signal_col df = replicate (length (close data)) 0).
  { rewrite Hsig, <- (roll_mean_length (close data) (Z.to_nat w)).
    apply signals_all_hold; [reflexivity|].
    intros i j p cur _ (H1 & H2).
    assert (Heq : cur.1 = cur.2) by congruence.
    destruct (crossover_values p cur) as [H|[H|H]]; [| |exact H]; exfalso.
    - apply crossover_buy in H. destruct H as [_ H].
      rewrite Heq in H. exact (Qlt_irrefl _ H).
    - apply crossover_sell in H. destruct H as [_ H].
      rewrite Heq in H. exact (Qlt_irrefl _ H). }
  split; [exact Hall|].
  rewrite (create_strategy_data_position _ _ _ _ Hdf), Hall.
  apply position_loop_zeros.
Qed.

Lemma equal_windows_all_hold_witness :
  ∃ df,
    create_strategy_data (mkFrame [3; 1; 4; 1; 5]%Q ∅) 2 2 = Ok df
    ∧ signal_col df = replicate 5 0
    ∧ position_col df = replicate 5 0.
Proof.
  apply (equal_windows_all_hold (mkFrame [3; 1; 4; 1; 5]%Q ∅) 2). lia.
Defined.

(** * data.py: validation *)

Lemma all_missing_cons (x : option Q) (col : list (option Q)) (i : nat) :
  all_missing (x :: col) (S i) ↔ x = None ∧ all_missing col i.
Proof.
  split.
  - intros H. split.
    + specialize (H O ltac:(lia)). simpl in H. congruence.
    + intros j Hj. exact (H (S j) ltac:(lia)).
  - intros [-> H] [|j] Hj; [reflexivity|]. apply H. lia.
Qed.

Lemma all_missing_head (x : option Q) (col : list (option Q)) :
  all_missing (x :: col) 0 ↔ x = None.
Proof.
  split.
  - intros H. specialize (H O ltac:(lia)). simpl in H. congruence.
  - intros -> j Hj. replace j with O by lia. reflexivity.
Qed.

Lemma last_value_cons (x : option Q) (col : list (option Q)) (i : nat)
    (v : Q) :
  last_value (x :: col) (S i) v
  ↔ last_value col i v ∨ (x = Some v ∧ all_missing col i).
Proof.
  split.
  - intros ([|j] & Hj & Hv & Hgap).
    + right. simpl in Hv. split; [congruence|].
      intros k Hk. exact (Hgap (S k) ltac:(lia) ltac:(lia)).
    + left. exists j. split; [lia|]. split; [exact Hv|].
      intros k H1 H2. exact (Hgap (S k) ltac:(lia) ltac:(lia)).
  - intros [(j & Hj & Hv & Hgap)|[-> Hall]].
    + exists (S j). split; [lia|]. split; [exact Hv|].
      intros [|k] H1 H2; [lia|]. apply Hgap; lia.
    + exists O. split; [lia|]. split; [reflexivity|].
      intros [|k] H1 H2; [lia|]. apply Hall. lia.
Qed.

Lemma last_value_head (x : option Q) (col : list (option Q)) (v : Q) :
  last_value (x :: col) 0 v ↔ x = Some v.
Proof.
  split.
  - intros (j & Hj & Hv & _). replace j with O in Hv by lia.
    simpl in Hv. congruence.
  - intros ->. exists O. split; [lia|]. split; [reflexivity|].
    intros k H1 H2. lia.
Qed.

Lemma ffill_from_length (col : list (option Q)) :
  ∀ last_seen, length (ffill_from last_seen col) = length col.
Proof.
  induction col as [|x col IH]; intros last_seen; simpl; [reflexivity|].
  rewrite IH. reflexivity.
Qed.

Lemma ffill_from_spec (col : list (option Q)) :
  ∀ last_seen i,
    (ffill_from last_seen col !! i = Some None
     ↔ last_seen = None ∧ all_missing col i)
    ∧ ∀ v, ffill_from last_seen col !! i = Some (Some v)
           ↔ last_value col i v ∨ (last_seen = Some v ∧ all_missing col i).
Proof.
  induction col as [|x col IH]; intros last_seen i.
  - simpl. split; [|intros v]; (split; [discriminate|]).
    + intros [_ H]. specialize (H i ltac:(lia)). discriminate.
    + intros [(j & _ & H & _)|[_ H]]; [discriminate|].
      specialize (H i ltac:(lia)). discriminate.
  - destruct i as [|i]; simpl.
    + split; [|intros v]; rewrite ?all_missing_head, ?last_value_head;
        destruct x as [a|].
      * split; [discriminate|intros [_ H]; discriminate].
      * split; [intros H; split; congruence|intros [-> _]; reflexivity].
      * split; [intros H; left; congruence|].
        intros [H|[_ H]]; [congruence|discriminate].
      * split; [intros H; right; split; congruence|].
        intros [H|[-> _]]; [discriminate|reflexivity].
    + destruct (IH (match x with Some _ => x | None => last_seen end) i)
        as (IH1 & IH2).
      split; [|intros v]; rewrite ?IH1, ?IH2, ?all_missing_cons,
        ?last_value_cons; destruct x as [a|].
      * split; [intros [H _]; discriminate|intros [_ [H _]]; discriminate].
      * tauto.
      * split; [tauto|]. intros [H|[_ [H _]]]; [exact H|discriminate].
      * split; [tauto|].
        intros [[H|[H _]]|[H1 [_ H2]]]; [tauto|discriminate|tauto].
Qed.

Lemma ffill_forward_filled (col : list (option Q)) :
  forward_filled col (ffill col).
Proof.
  split; [apply ffill_from_length|]. intros i.
  destruct (ffill_from_spec col None i) as (H1 & H2).
  split.
  - unfold ffill. rewrite H1. split.
    + intros [_ H]. split; [|exact H].
      apply (lookup_lt_Some col i None). apply H. lia.
    + intros [_ H]. split; [reflexivity|exact H].
  - intros v. unfold ffill. rewrite H2. fold (last_value col i v).
    split; [intros [?|[? _]]; [assumption|discriminate]|tauto].
Qed.

(** A column without gaps is left as it is. *)
Lemma ffill_from_complete (col : list (option Q)) :
  has_missing col = false → ∀ last_seen, ffill_from last_seen col = col.
Proof.
  induction col as [|x col IH]; intros H last_seen; [reflexivity|].
  simpl in H. destruct x as [a|]; [|discriminate]. simpl in H.
  simpl. rewrite (IH H). reflexivity.
Qed.

(** A filled column has gaps only before its first value, and filling it
    again changes nothing. *)
Lemma ffill_from_idempotent (col : list (option Q)) :
  ∀ last_seen,
    ffill_from last_seen (ffill_from last_seen col) = ffill_from last_seen col.
Proof.
  induction col as [|x col IH]; intros last_seen; [reflexivity|].
  simpl. destruct x as [a|].
  - rewrite IH. reflexivity.
  - destruct last_seen as [b|]; rewrite IH; reflexivity.
Qed.

Lemma forward_filled_complete (col : list (option Q)) :
  has_missing col = false → forward_filled col col.
Proof.
  intros H. pose proof (ffill_forward_filled col) as Hf.
  unfold ffill in Hf. rewrite (ffill_from_complete col H) in Hf. exact Hf.
Qed.

(** X17: [validate_data] raises ValueError exactly on a frame without rows
    or without columns; otherwise it returns a frame with the same number
    of rows and the same column names in the same order, in which every
    column is forward-filled: values are kept, a gap takes the nearest
    value above it, and only gaps above the first value remain. *)
Theorem validate_data_fills_gaps (data : PriceData) :
  (frame_empty data = true → validate_data data = Raise ValueError)
  ∧ (frame_empty data = false →
     ∃ out,
       validate_data data = Ok out
       ∧ n_rows out = n_rows data
       ∧ Forall2 (fun c c' => c'.1 = c.1 ∧ forward_filled c.2 c'.2)
           (columns data) (columns out)).
Proof.
  unfold validate_data. split; intros ->; [reflexivity|].
  destruct (existsb (fun c => has_missing c.2) (columns data)) eqn:E.
  - eexists. split; [reflexivity|]. split; [reflexivity|]. simpl.
    apply Forall2_fmap_r, Forall_Forall2_diag, Forall_forall.
    intros c _. split; [reflexivity|apply ffill_forward_filled].
  - exists data. split; [reflexivity|]. split; [reflexivity|].
    apply Forall_Forall2_diag, Forall_forall. intros c Hc.
    split; [reflexivity|]. apply forward_filled_complete.
    destruct (has_missing c.2) eqn:Hm; [|reflexivity].
    assert (existsb (fun c => has_missing c.2) (columns data) = true);
      [|congruence].
    apply existsb_exists. exists c. split; [|exact Hm].
    apply list_elem_of_In. exact Hc.
Qed.

Lemma validate_data_fills_gaps_witness :
  validate_data (mkPriceData 0 [("Close"%string, [])]) = Raise ValueError
  ∧ ∃ out,
      validate_data
        (mkPriceData 4 [("Close"%string, [None; Some 3; None; Some 4]%Q)])
        = Ok out
      ∧ columns out = [("Close"%string, [None; Some 3; Some 3; Some 4]%Q)].
Proof.
  split.
  - exact (proj1 (validate_data_fills_gaps
                    (mkPriceData 0 [("Close"%string, [])])) eq_refl).
  - destruct (proj2 (validate_data_fills_gaps
                (mkPriceData 4
                   [("Close"%string, [None; Some 3; None; Some 4]%Q)]))
                eq_refl) as (out & Hout & _).
    exists out. split; [exact Hout|].
    vm_compute in Hout. injection Hout as <-. reflexivity.
Defined.

(** X18: validation is idempotent: a frame that [validate_data] returned
    passes [validate_data] again and comes back unchanged. *)
Theorem validate_data_idempotent (data out : PriceData) :
  validate_data data = Ok out → validate_data out = Ok out.
Proof.
  intros H. pose proof H as H0. unfold validate_data in H.
  destruct (frame_empty data) eqn:Hempty; [discriminate|].
  destruct (existsb (fun c => has_missing c.2) (columns data)) eqn:E;
    injection H as <-; [|exact H0].
  unfold validate_data.
  assert (Hne : frame_empty
                  (mkPriceData (n_rows data)
                     ((fun c => (c.1, ffill c.2)) <$> columns data))
                = false).
  { unfold frame_empty in *. simpl.
    destruct (n_rows data =? 0)%nat; [discriminate|].
    destruct (columns data); [discriminate|reflexivity]. }
  rewrite Hne. cbn [columns n_rows].
  destruct (existsb (fun c => has_missing c.2)
              ((fun c => (c.1, ffill c.2)) <$> columns data));
    [|reflexivity].
  f_equal. f_equal. rewrite <- list_fmap_compose.
  apply list_fmap_ext. intros i c _. simpl. f_equal.
  apply ffill_from_idempotent.
Qed.

Lemma validate_data_idempotent_witness :
  ∃ out,
    validate_data
      (mkPriceData 4 [("Close"%string, [None; Some 3; None; Some 4]%Q)])
      = Ok out
    ∧ validate_data out = Ok out.
Proof.
  eexists.
  assert (H : validate_data
                (mkPriceData 4
                   [("Close"%string, [None; Some 3; None; Some 4]%Q)])
              = Ok ?[out]) by (vm_compute; reflexivity).
  split; [exact H|]. exact (validate_data_idempotent _ _ H).
Defined.

(** * main.py: the buy-and-hold curve *)

Lemma run_backtest_inv (annualized_std : list (option num) → num)
    (capital r : Q) (data : list Row) (out : Outcome) :
  run_backtest annualized_std capital r data = Ok out →
  ∃ st,
    simulate r (initial_portfolio capital) data = Ok st
    ∧ trades out = trade_log st
    ∧ snapshots out = portfolio_values st
    ∧ calculate_performance_metrics annualized_std capital (trade_log st)
        (portfolio_values st) data = Ok (results out).
Proof.
  unfold run_backtest. intros H.
  destruct (simulate r (initial_portfolio capital) data) as [st|] eqn:Hsim;
    [|discriminate].
  simpl in H.
  destruct (calculate_performance_metrics annualized_std capital
              (trade_log st) (portfolio_values st) data) as [res|] eqn:Hres;
    [|discriminate].
  simpl in H. injection H as <-. exists st.
  split; [reflexivity|]. split; [reflexivity|]. split; [reflexivity|].
  exact Hres.
Qed.

Lemma metrics_capital (annualized_std : list (option num) → num) (capital : Q)
    (log : list Trade) (values : list Snapshot) (data : list Row)
    (m : Metrics) :
  calculate_performance_metrics annualized_std capital log values data
    = Ok (Some m) →
  initial_capital m = capital.
Proof.
  unfold calculate_performance_metrics. intros H.
  destruct (last values) as [final|]; [|discriminate].
  destruct (head data) as [first_row|]; [|discriminate].
  destruct (last data) as [last_row|]; [|discriminate].
  simpl in H.
  destruct (win_rate log) as [[pairs rate]|]; [|discriminate].
  simpl in H. injection H as <-. reflexivity.
Qed.

Lemma head_fmap {A B : Type} (f : A → B) (l : list A) :
  head (f <$> l) = f <$> head l.
Proof. destruct l; reflexivity. Qed.

Lemma snapshot_prices (values : list Snapshot) (data : list Row) :
  Forall2 snapshot_of_row values data → s_Price <$> values = Close <$> data.
Proof.
  induction 1 as [|s row values data (_ & Hp & _) _ IH]; [reflexivity|].
  rewrite !fmap_cons, Hp, IH. reflexivity.
Qed.

(** X19: the ['Buy_Hold_Value'] curve that the equity plot draws from a
    completed run whose first price is not zero has one point per row,
    starts at the initial capital and ends at the buy-and-hold final value
    reported among the metrics. *)
Theorem buy_hold_curve_matches_metric
    (annualized_std : list (option num) → num) (capital r : Q)
    (data : list Row) (out : Outcome) (m : Metrics) (first_row : Row) :
  run_backtest annualized_std capital r data = Ok out →
  results out = Some m →
  head data = Some first_row →
  ¬ (Close first_row == 0)%Q →
  ∃ curve start finish target,
    buy_hold_curve out = Ok curve
    ∧ length curve = length data
    ∧ head curve = Some (Fin start) ∧ (start == capital)%Q
    ∧ last curve = Some (Fin finish)
    ∧ buy_hold_final_value m = Fin target
    ∧ (finish == target)%Q.
Proof.
  intros Hrun Hm Hhead Hp.
  destruct (run_backtest_inv _ _ _ _ _ Hrun) as (st & Hsim & _ & Hsnap & Hres).
  rewrite Hm in Hres.
  pose proof (snapshot_prices _ _ (snapshots_follow_rows_aux _ _ _ _ Hsim))
    as Hprices.
  destruct (metrics_fields _ _ _ _ _ _ Hres)
    as (_ & _ & first_row' & last_row & _ & Hh & Hl & _ & _ & _ & _ & _ & Hbh).
  rewrite Hhead in Hh. injection Hh as <-.
  pose proof (metrics_capital _ _ _ _ _ _ Hres) as Hcap.
  assert (Hnz : Qeq_bool (Close first_row) 0 = false)
    by (apply Qeq_bool_false_iff; exact Hp).
  unfold buy_hold_curve. rewrite Hm, Hsnap, Hprices. simpl.
  rewrite head_fmap, Hhead. simpl. rewrite Hcap.
  unfold fdiv at 1. rewrite Hnz. simpl.
  eexists _, _, _, _. split; [reflexivity|].
  split; [rewrite length_fmap;
          exact (simulate_snapshots_length _ _ _ _ Hsim)|].
  assert (Hcurve :
    (fun s => Fin (capital / Close first_row * s_Price s)%Q)
      <$> portfolio_values st
    = (fun p => Fin (capital / Close first_row * p)%Q) <$> (Close <$> data)).
  { rewrite <- Hprices, <- list_fmap_compose. reflexivity. }
  rewrite Hcurve, !head_fmap, !fmap_last, Hhead, Hl. simpl.
  split; [reflexivity|]. split; [field; exact Hp|].
  split; [reflexivity|].
  rewrite Hbh. unfold fdiv. rewrite Hnz. simpl.
  split; [reflexivity|]. field. exact Hp.
Qed.

Lemma buy_hold_curve_matches_metric_witness :
  ∃ out m curve start finish target,
    run_backtest (fun _ => NonFinite) 10000 (1 # 1000) flat_scenario = Ok out
    ∧ results out = Some m
    ∧ buy_hold_curve out = Ok curve
    ∧ head curve = Some (Fin start) ∧ (start == 10000)%Q
    ∧ last curve = Some (Fin finish)
    ∧ buy_hold_final_value m = Fin target
    ∧ (finish == target)%Q.
Proof.
  assert (Hrun : ∃ out m,
            run_backtest (fun _ => NonFinite) 10000 (1 # 1000) flat_scenario
              = Ok out
            ∧ results out = Some m).
  { do 2 eexists. split; [cbv; reflexivity|reflexivity]. }
  destruct Hrun as (out & m & Hrun & Hm).
  destruct (buy_hold_curve_matches_metric _ _ _ _ out m (mkRow 0 100 0 0)
              Hrun Hm eq_refl ltac:(simpl; lra))
    as (curve & start & finish & target & H1 & _ & H3 & H4 & H5 & H6 & H7).
  exists out, m, curve, start, finish, target.
  exact (conj Hrun (conj Hm (conj H1 (conj H3 (conj H4 (conj H5
           (conj H6 H7))))))).
Defined.

(** * The configuration and the strategy *)

Lemma validate_config_true (S L : Z) (C K : Q) :
  validate_config S L C K = true → S < L ∧ (0 < C)%Q ∧ (0 <= K)%Q.
Proof.
  unfold validate_config, config_errors.
  destruct (Z.geb_spec S L) as [H1|H1]; [discriminate|].
  destruct (Qle_bool C 0) eqn:H2; [discriminate|].
  destruct (Qltb K 0) eqn:H3; [discriminate|].
  intros _. split; [exact H1|]. split.
  - apply Qnot_le_lt. intros H. apply Qle_bool_iff in H. congruence.
  - apply Qnot_lt_le. intros H. apply Qltb_lt in H. congruence.
Qed.

Lemma iterrows_from_length (prices : list Q) :
  ∀ i signal position,
    length signal = length prices → length position = length prices →
    length (iterrows_from i prices signal position) = length prices.
Proof.
  induction prices as [|p prices IH]; intros i [|s signal] [|q position] Hs Hq;
    try discriminate; simpl in *; [reflexivity|].
  rewrite IH; [reflexivity|lia|lia].
Qed.

(** X20: a configuration that [validate_config] accepts has its short
    window below its long one, a positive capital and a commission rate
    that is not negative; when moreover the short window is not negative,
    the strategy completes on every price series and hands the backtest
    one row, with one signal and one position, per price. *)
Theorem accepted_config_runs_strategy (prices : list Q)
    (columns : gmap Z (list (option Q))) (S L : Z) (C K : Q) :
  validate_config S L C K = true →
  0 <= S →
  S < L ∧ (0 < C)%Q ∧ (0 <= K)%Q
  ∧ ∃ df,
      create_strategy_data (mkFrame prices columns) S L = Ok df
      ∧ length (signal_col df) = length prices
      ∧ length (position_col df) = length prices
      ∧ length (iterrows df) = length prices.
Proof.
  intros Hcfg HS.
  apply validate_config_true in Hcfg. destruct Hcfg as (HSL & HC & HK0).
  split; [exact HSL|]. split; [exact HC|]. split; [exact HK0|].
  destruct (create_strategy_data_signals (mkFrame prices columns) S L
              HS ltac:(lia)) as (df & Hdf & Hclose & Hsig).
  simpl in Hclose, Hsig.
  assert (Hlen : length (signal_col df) = length prices).
  { rewrite Hsig, signals_from_length; rewrite !roll_mean_length; reflexivity. }
  assert (Hpos : length (position_col df) = length prices).
  { rewrite (create_strategy_data_position _ _ _ _ Hdf), position_loop_length.
    exact Hlen. }
  exists df. split; [exact Hdf|]. split; [exact Hlen|]. split; [exact Hpos|].
  unfold iterrows. rewrite Hclose.
  apply iterrows_from_length; assumption.
Qed.

Lemma accepted_config_runs_strategy_witness :
  1 < 2 ∧ (0 < 10000)%Q ∧ (0 <= 1 # 1000)%Q
  ∧ ∃ df,
      create_strategy_data (mkFrame [3; 1; 4; 1; 5]%Q ∅) 1 2 = Ok df
      ∧ length (signal_col df) = 5%nat
      ∧ length (position_col df) = 5%nat
      ∧ length (iterrows df) = 5%nat.
Proof.
  apply (accepted_config_runs_strategy [3; 1; 4; 1; 5]%Q ∅ 1 2 10000
           (1 # 1000)); [reflexivity|lia].
Defined.

(** X21: the strategy only adds columns.  [calculate_moving_averages]
    keeps the prices and every column other than the two it writes, and
    [generate_signals] returns the very frame it was given beside its
    signals and positions. *)
Theorem strategy_only_adds_columns (data : Frame) (sw lw : Z) :
  (∀ df, calculate_moving_averages data sw lw = Ok df →
         close df = close data
         ∧ ∀ w, w ≠ sw → w ≠ lw → ma df !! w = ma data !! w)
  ∧ (∀ df, generate_signals data sw lw = Ok df → frame df = data).
Proof.
  split.
  - unfold calculate_moving_averages. intros df H.
    destruct (rolling_mean sw (close data)) as [sc|]; [|discriminate].
    simpl in H.
    destruct (rolling_mean lw (close data)) as [lc|]; [|discriminate].
    simpl in H. injection H as <-. simpl. split; [reflexivity|].
    intros w Hs Hl. rewrite !lookup_insert_ne by congruence. reflexivity.
  - unfold generate_signals. intros df H.
    destruct (ma data !! sw) as [sc|]; [|discriminate].
    destruct (ma data !! lw) as [lc|]; [|discriminate].
    simpl in H.
    destruct (length (dropna sc lc) <? 2)%nat; injection H as <-;
      reflexivity.
Qed.

Lemma strategy_only_adds_columns_witness :
  ∃ df,
    calculate_moving_averages crossing_frame 3 4 = Ok df
    ∧ close df = close crossing_frame
    ∧ ma df !! 1 = ma crossing_frame !! 1.
Proof.
  destruct (calculate_moving_averages_columns crossing_frame 3 4)
    as (df & Hdf & _); [lia|lia|].
  destruct (proj1 (strategy_only_adds_columns crossing_frame 3 4) df Hdf)
    as (Hc & Hma).
  exists df. split; [exact Hdf|]. split; [exact Hc|].
  apply Hma; lia.
Defined.

(** X22: [generate_signals] completes exactly when the frame has both
    moving-average columns it is asked to compare, and what it raises
    otherwise is the KeyError of the missing column. *)
Theorem generate_signals_needs_columns (data : Frame) (sw lw : Z) :
  (is_ok (generate_signals data sw lw)
   ↔ is_Some (ma data !! sw) ∧ is_Some (ma data !! lw))
  ∧ (∀ e, generate_signals data sw lw = Raise e → e = KeyError).
Proof.
  unfold generate_signals.
  destruct (ma data !! sw) as [sc|]; simpl.
  - destruct (ma data !! lw) as [lc|]; simpl.
    + split.
      * split; [intros _; split; eexists; reflexivity|intros _].
        destruct (length (dropna sc lc) <? 2)%nat; exact I.
      * intros e. destruct (length (dropna sc lc) <? 2)%nat; discriminate.
    + split.
      * split; [intros []|intros [_ [x Hx]]; discriminate].
      * intros e H. injection H as <-. reflexivity.
  - split.
    + split; [intros []|intros [[x Hx] _]; discriminate].
    + intros e H. injection H as <-. reflexivity.
Qed.

Lemma generate_signals_needs_columns_witness :
  generate_signals (mkFrame [3; 1; 4]%Q ∅) 1 2 = Raise KeyError
  ∧ is_ok (generate_signals crossing_frame 1 2).
Proof.
  split.
  - destruct (generate_signals (mkFrame [3; 1; 4]%Q ∅) 1 2) as [df|e] eqn:E;
      [discriminate E|].
    rewrite (proj2 (generate_signals_needs_columns
                      (mkFrame [3; 1; 4]%Q ∅) 1 2) e E).
    reflexivity.
  - apply (proj1 (generate_signals_needs_columns crossing_frame 1 2)).
    split; eexists; reflexivity.
Defined.
